(** * pr-digest: a shallow embedding of [.github/workflows/pr-digest.js]

    The script collects open pull requests from a list of repositories and
    from a per-author search, merges them in a [Map] keyed by the pull
    request's URL, splits them in team-owned and other repositories, and
    renders a Slack text.

    Conventions of the embedding.
    - A JavaScript string is a Rocq [string] holding its UTF-8 bytes.  Every
      character the script inspects ("/", "@", "-", the decimal digits and
      white space) is matched on its UTF-8 encoding.
    - A JavaScript number is a [Z]: the configuration caps, the pull request
      numbers, the line counts and the time stamps are integers, in the
      range where a double holds them exactly.  Where the script makes a
      number of a text it has not chosen, the digits at the end of the
      [url] of a search item, the number is the nearest double, which may be
      [Infinity]; an integer of [org], [repos] or [users] is printed as the
      nearest double is.
    - Texts are compared byte by byte, that is by code points; this is
      the order of their UTF-16 code units, but for a character from
      U+E000 to U+FFFF against one beyond U+FFFF.
    - The fields [org], [repos] and [users] of the configuration are untyped
      JSON [value]s and the three caps optional integers; the answers of the
      GitHub API are typed records whose optional fields are the ones the
      script guards ([?.], [??], [||], [!x]).
    - The script's effects are threaded through a state-and-exception monad:
      the [Map], the reads of the clock, the remote calls made so far and the
      two calls on [core] ([setFailed], [setOutput]). *)

From Stdlib Require Import ZArith List String Ascii Bool Lia.
From Stdlib Require Import Sorted Permutation DecimalString DecimalPos.
Import ListNotations.

Set Warnings "-register-all".

Local Open Scope string_scope.
Local Open Scope Z_scope.

(* ================================================================== *)
(** * JavaScript built-ins used by the script *)
(* ================================================================== *)

Module Js.

(** ** Values of the configuration document *)

Inductive value : Type :=
| VUndef
| VNull
| VBool (b : bool)
| VNum (n : Z)
| VStr (s : string)
| VArr (items : list value)
| VObj (fields : list (string * value)).

(** [!!v] *)
Definition truthy (v : value) : bool :=
  match v with
  | VUndef | VNull => false
  | VBool b => b
  | VNum n => negb (n =? 0)
  | VStr s => negb (s =? "")%string
  | VArr _ | VObj _ => true
  end.

(** [v === null || v === undefined] *)
Definition nullish (v : value) : bool :=
  match v with
  | VUndef | VNull => true
  | _ => false
  end.

(** [a || b] *)
Definition or_else (a b : value) : value :=
  if truthy a then a else b.

(** [Array.isArray(v) ? v : []] *)
Definition array_or_empty (v : value) : list value :=
  match v with
  | VArr items => items
  | _ => []
  end.

Definition isArray (v : value) : bool :=
  match v with
  | VArr _ => true
  | _ => false
  end.

(** ** Numbers *)

(** Decimal text of an integer, as [String(n)] gives it for the integers
    below [2^53] in absolute value. *)
Definition string_of_Z (n : Z) : string :=
  NilZero.string_of_int (Z.to_int n).

(** The double nearest to a natural number, as the integer it stands
    for: below [2^53] the number itself; from there on the 53 leading
    bits, rounded to nearest with ties to the even mantissa.  [None] is
    [Infinity], reached when the rounded value is [2^1024] or more. *)
Definition nearest_double (n : Z) : option Z :=
  if n <? 2 ^ 53 then Some n
  else
    let e := Z.log2 n - 52 in
    let q := n / 2 ^ e in
    let r := n mod 2 ^ e in
    let half := 2 ^ (e - 1) in
    let q' := if (half <? r) || ((r =? half) && Z.odd q) then q + 1 else q in
    let x := q' * 2 ^ e in
    if 2 ^ 1024 <=? x then None else Some x.

(** [v] reads as the double [x]. *)
Definition reads (x v : Z) : bool :=
  match nearest_double v with
  | Some y => y =? x
  | None => false
  end.

(** A number of [k] significant digits that reads as [x], if there is
    one: the multiple of the unit of the [k]-th digit below [x] or the one
    above, the nearer of the two when both do, the even one on a tie. *)
Definition short_of (x k : Z) : option Z :=
  let p := Z.of_nat (String.length (string_of_Z x)) - k in
  let unit := 10 ^ p in
  let lo := x / unit * unit in
  let hi := lo + unit in
  if p <? 0 then None
  else if reads x lo && reads x hi then
    Some (if (x - lo <? hi - x) || ((x - lo =? hi - x) && Z.even (lo / unit))
          then lo else hi)
  else if reads x lo then Some lo
  else if reads x hi then Some hi
  else None.

(** The number of fewest significant digits that reads as [x]. *)
Fixpoint shortest (x : Z) (ks : list Z) : Z :=
  match ks with
  | [] => x
  | k :: rest =>
      match short_of x k with
      | Some v => v
      | None => shortest x rest
      end
  end.

Fixpoint drop_zeros (s : list ascii) : list ascii :=
  match s with
  | c :: r => if Ascii.eqb c "0" then drop_zeros r else s
  | [] => []
  end.

(** The digits of a numeral without the zeros at its end. *)
Definition strip_zeros (s : string) : string :=
  string_of_list_ascii (rev (drop_zeros (rev (list_ascii_of_string s)))).

(** [String(x)] for a double [x] that is a natural number: the digits of
    [x] below [2^53]; from there on the fewest digits that read as [x],
    followed by zeros up to 21 digits in all, and in the form
    [d.ddde+n] beyond. *)
Definition Number_toString (x : Z) : string :=
  if x <? 2 ^ 53 then string_of_Z x
  else
    let text :=
      string_of_Z (shortest x [1;2;3;4;5;6;7;8;9;10;11;12;13;14;15;16;17]) in
    let n := Z.of_nat (String.length text) in
    if n <=? 21 then text
    else
      match strip_zeros text with
      | String d EmptyString => String d ("e+" ++ string_of_Z (n - 1))
      | String d r => String d ("." ++ r ++ "e+" ++ string_of_Z (n - 1))
      | EmptyString => text
      end.

(** [String(n)] for an integer of the configuration, which [JSON.parse]
    has read as the nearest double. *)
Definition String_of_number (n : Z) : string :=
  let unsigned m :=
    match nearest_double m with
    | Some x => Number_toString x
    | None => "Infinity"
    end in
  if n <? 0 then "-" ++ unsigned (- n) else unsigned n.

(** ** Conversion to text *)

(** [String(v)] returns or throws.  It throws a [TypeError] on an object
    that has a key [toString] of its own: the value under that key comes
    from JSON and is no function, it hides [Object.prototype.toString],
    and [valueOf] gives back the object.  An array joins the texts of its
    elements, and throws when one of them does. *)
Fixpoint printable (v : value) : bool :=
  match v with
  | VArr items => forallb printable items
  | VObj fields => negb (existsb (fun kv => (fst kv =? "toString")%string) fields)
  | _ => true
  end.

(** [String(v)], the text it returns when it returns. *)
Fixpoint to_string (v : value) : string :=
  match v with
  | VUndef => "undefined"
  | VNull => "null"
  | VBool true => "true"
  | VBool false => "false"
  | VNum n => String_of_number n
  | VStr s => s
  | VArr items =>
      String.concat ","
        (map (fun x => if nullish x then "" else to_string x) items)
  | VObj _ => "[object Object]"
  end.

(** ** Strings *)

Definition code (c : ascii) : N := N_of_ascii c.

(** White space and line terminators of one byte:
    TAB, LF, VT, FF, CR and SPACE. *)
Definition ws1 (c : ascii) : bool :=
  let n := code c in
  ((9 <=? n) && (n <=? 13) || (n =? 32))%N.

(** U+00A0, encoded C2 A0. *)
Definition ws2 (c1 c2 : ascii) : bool :=
  ((code c1 =? 194) && (code c2 =? 160))%N.

(** White space of three bytes: U+1680, U+2000..U+200A, U+2028, U+2029,
    U+202F, U+205F, U+3000 and U+FEFF. *)
Definition ws3 (c1 c2 c3 : ascii) : bool :=
  let a := code c1 in
  let b := code c2 in
  let c := code c3 in
  ((a =? 225) && (b =? 154) && (c =? 128)
   || (a =? 226) && (b =? 128)
      && ((128 <=? c) && (c <=? 138) || (c =? 168) || (c =? 169) || (c =? 175))
   || (a =? 226) && (b =? 129) && (c =? 159)
   || (a =? 227) && (b =? 128) && (c =? 128)
   || (a =? 239) && (b =? 187) && (c =? 191))%N.

Fixpoint trimStart_list (s : list ascii) : list ascii :=
  match s with
  | [] => []
  | c1 :: r1 =>
      if ws1 c1 then trimStart_list r1
      else
        match r1 with
        | [] => s
        | c2 :: r2 =>
            if ws2 c1 c2 then trimStart_list r2
            else
              match r2 with
              | [] => s
              | c3 :: r3 => if ws3 c1 c2 c3 then trimStart_list r3 else s
              end
        end
  end.

(** The same from the end, on the reversed bytes. *)
Fixpoint trimEnd_rev (s : list ascii) : list ascii :=
  match s with
  | [] => []
  | c1 :: r1 =>
      if ws1 c1 then trimEnd_rev r1
      else
        match r1 with
        | [] => s
        | c2 :: r2 =>
            if ws2 c2 c1 then trimEnd_rev r2
            else
              match r2 with
              | [] => s
              | c3 :: r3 => if ws3 c3 c2 c1 then trimEnd_rev r3 else s
              end
        end
  end.

(** [s.trim()] *)
Definition trim (s : string) : string :=
  string_of_list_ascii
    (rev (trimEnd_rev (rev (trimStart_list (list_ascii_of_string s))))).

(** [s.split(sep)] for a separator of one character. *)
Fixpoint split (sep : ascii) (s : string) : list string :=
  match s with
  | EmptyString => [EmptyString]
  | String c r =>
      if Ascii.eqb c sep then EmptyString :: split sep r
      else
        match split sep r with
        | h :: t => String c h :: t
        | [] => [String c EmptyString]
        end
  end.

(** [s.replace(/^@/, "")] *)
Definition strip_at (s : string) : string :=
  match s with
  | String c r => if Ascii.eqb c "@" then r else s
  | EmptyString => s
  end.

Definition is_digit (c : ascii) : bool :=
  let n := code c in ((48 <=? n) && (n <=? 57))%N.

Definition digit_val (c : ascii) : Z := Z.of_N (code c) - 48.

(** The decimal value of a string of digits.  It is [Number(s)] where a
    double holds the value exactly, as for the groups of an ISO date. *)
Definition number_of_digits (s : string) : Z :=
  fold_left (fun acc c => 10 * acc + digit_val c) (list_ascii_of_string s) 0.

(** [Number(s)] for a string of decimal digits: the double nearest to its
    value, as the engine of Node computes it. *)
Definition Number_of (s : string) : option Z :=
  nearest_double (number_of_digits s).

(** ** Arrays *)

(** [xs.slice(0, n)]: a negative [n] counts from the end. *)
Definition slice0 {A : Type} (n : Z) (xs : list A) : list A :=
  if n <? 0 then firstn (Z.to_nat (Z.of_nat (List.length xs) + n)) xs
  else firstn (Z.to_nat n) xs.

(** [xs.sort(cmp)] is a stable sort.  With [le a b] standing for
    [cmp(a, b) <= 0], the sorted array is the one insertion from the right
    builds: an element is put before the first of the later elements it
    need not follow, so equal elements keep their order. *)
Section Sort.
Context {A : Type} (le : A -> A -> bool).

Fixpoint insert_sorted (x : A) (xs : list A) : list A :=
  match xs with
  | [] => [x]
  | y :: ys => if le x y then x :: xs else y :: insert_sorted x ys
  end.

Definition sort (xs : list A) : list A :=
  fold_right insert_sorted [] xs.
End Sort.

(** ** [Map]

    A [Map] keeps its entries in insertion order; [set] on a key already
    present replaces the value where it stands. *)
Section JsMap.
Context {V : Type}.

Definition jsmap := list (string * V).

Fixpoint map_set (k : string) (v : V) (m : jsmap) : jsmap :=
  match m with
  | [] => [(k, v)]
  | (k', v') :: rest =>
      if (k =? k')%string then (k, v) :: rest
      else (k', v') :: map_set k v rest
  end.

Fixpoint map_get (k : string) (m : jsmap) : option V :=
  match m with
  | [] => None
  | (k', v') :: rest => if (k =? k')%string then Some v' else map_get k rest
  end.

Definition map_size (m : jsmap) : Z := Z.of_nat (List.length m).

Definition map_values (m : jsmap) : list V := map snd m.

Definition map_keys (m : jsmap) : list string := map fst m.
End JsMap.

Arguments jsmap : clear implicits.

End Js.

(* ================================================================== *)
(** * The collaborators: environment, file system, clock, GitHub API *)
(* ================================================================== *)

Module Platform.
Import Js.

(** The parsed configuration file.  [org], [repos] and [users] are kept
    untyped, since the script tests them ([!org], [Array.isArray]); the
    three caps are optional integers, absent when the field is missing or
    [null].  A document that is not an object has no field at all. *)
Record config_doc : Type := {
  cfg_org : value;
  cfg_repos : value;
  cfg_users : value;
  cfg_max_prs_per_repo : option Z;
  cfg_max_total_prs : option Z;
  cfg_max_search_results_per_user : option Z
}.

(** What [JSON.parse] returns: the document [null], or a document whose
    fields can be read. *)
Inductive parsed : Type :=
| PNull
| PDoc (cfg : config_doc).

(** A path of the file system: [existsSync] is false on [Missing];
    [readFileSync] throws on [Unreadable] (a directory, a file without
    read permission) with the given message. *)
Inductive file : Type :=
| Missing
| Unreadable (message : string)
| Content (text : string).

(** What a remote call or a built-in throws. [status] is [e.status]. *)
Inductive exn : Type :=
| HttpError (status : option Z)
| TypeError (message : string).

(** The answer of [pulls.get] ([data]).  [created_at] is the creation time
    in milliseconds, as [new Date(data.created_at)] reads it. *)
Record pull_data : Type := {
  html_url : string;
  data_number : Z;
  data_title : string;
  user_login : option string;
  created_at : Z;
  data_additions : option Z;
  data_deletions : option Z;
  data_draft : bool
}.

(** An element of a listing page: a falsy element, or an object whose
    [number] may be missing. *)
Inductive listing_item : Type :=
| NoItem
| Item (number : option Z).

(** A page of the listing iterator: [None] when [page] or [page.data] is
    [null] or [undefined]. *)
Definition listing_page : Type := option (list listing_item).

(** An element of a search answer: something that is falsy or not an
    object, or an object whose [url] may be missing. *)
Inductive search_item : Type :=
| NotObject
| SearchItem (url : option string).

(** An answer of the search endpoint: [None] when [r.data.items] is not an
    array. *)
Definition search_page : Type := option (list search_item).

Record world : Type := {
  (** [process.env.PR_DIGEST_CONFIG] *)
  env_PR_DIGEST_CONFIG : option string;
  file_at : string -> file;
  (** [JSON.parse]: a [SyntaxError] message, or the document *)
  JSON_parse : string -> string + parsed;
  (** [Date.now()] at its k-th call *)
  clock : nat -> Z;
  (** [new Date().toISOString().slice(0, 10)] *)
  today_iso : string;
  (** [github.rest.pulls.get] *)
  pulls_get : string -> string -> Z -> exn + pull_data;
  (** the pages [github.paginate.iterator(github.rest.pulls.list, ...)]
      yields, in order; an error ends the iteration *)
  pulls_list : string -> string -> list (exn + listing_page);
  (** the pages [github.paginate] fetches for a search query, or the
      error of the first call that fails *)
  search_issues : string -> exn + list search_page
}.

(** The remote calls, as the script issues them. *)
Inductive call : Type :=
| CallList (owner repo : string) (page : nat)
| CallGet (owner repo : string) (number : Z)
| CallSearch (q : string).

End Platform.

(* ================================================================== *)
(** * The script *)
(* ================================================================== *)

Module Digest.
Import Js Platform.

(** An entry of [prMap]. *)
Record pr_record : Type := {
  pr_repo : string;
  pr_number : Z;
  pr_title : string;
  pr_url : string;
  pr_author : string;
  pr_days : Z;
  pr_additions : Z;
  pr_deletions : Z;
  pr_draft : bool
}.

(** What the run has done so far. *)
Record state : Type := {
  prMap : jsmap pr_record;
  (** number of calls of [Date.now()] *)
  ticks : nat;
  (** remote calls, oldest first *)
  calls : list call;
  (** messages given to [core.setFailed], oldest first *)
  failed : list string;
  (** the text given to [core.setOutput("slack_text", ...)] *)
  output : option string
}.

Definition initial : state :=
  {| prMap := []; ticks := 0; calls := []; failed := []; output := None |}.

(** ** The monad of the script: state and exceptions *)

Inductive result (A : Type) : Type :=
| Ok (a : A)
| Throw (e : exn).
Arguments Ok {A} a.
Arguments Throw {A} e.

Definition M (A : Type) : Type := state -> result A * state.

Definition ret {A : Type} (a : A) : M A := fun st => (Ok a, st).

Definition bind {A B : Type} (m : M A) (k : A -> M B) : M B :=
  fun st =>
    match m st with
    | (Ok a, st') => k a st'
    | (Throw e, st') => (Throw e, st')
    end.

Definition throw {A : Type} (e : exn) : M A := fun st => (Throw e, st).

(** [try { body } catch (e) { handler }] *)
Definition try_catch {A : Type} (body : M A) (handler : exn -> M A) : M A :=
  fun st =>
    match body st with
    | (Ok a, st') => (Ok a, st')
    | (Throw e, st') => handler e st'
    end.

Declare Scope script_scope.
Delimit Scope script_scope with script.
Notation "x <- m ;; k" := (bind m (fun x => k))
  (at level 61, m at next level, right associativity) : script_scope.
Notation "m ;; k" := (bind m (fun _ => k))
  (at level 61, right associativity) : script_scope.
Local Open Scope script_scope.

(** [prMap.size] *)
Definition size : M Z := fun st => (Ok (map_size (prMap st)), st).

(** [prMap.set(k, v)] *)
Definition prMap_set (k : string) (v : pr_record) : M unit :=
  fun st =>
    (Ok tt,
     {| prMap := map_set k v (prMap st); ticks := ticks st;
        calls := calls st; failed := failed st; output := output st |}).

(** A remote call, recorded when it is issued. *)
Definition remote (c : call) : M unit :=
  fun st =>
    (Ok tt,
     {| prMap := prMap st; ticks := ticks st;
        calls := calls st ++ [c]; failed := failed st; output := output st |}).

(** [core.setFailed(msg)] *)
Definition setFailed (msg : string) : M unit :=
  fun st =>
    (Ok tt,
     {| prMap := prMap st; ticks := ticks st;
        calls := calls st; failed := failed st ++ [msg]; output := output st |}).

(** [core.setOutput("slack_text", text)] *)
Definition setOutput (text : string) : M unit :=
  fun st =>
    (Ok tt,
     {| prMap := prMap st; ticks := ticks st;
        calls := calls st; failed := failed st; output := Some text |}).

(** Lifting the answer of a remote call: an error is thrown. *)
Definition await {A : Type} (r : exn + A) : M A :=
  match r with
  | inl e => throw e
  | inr a => ret a
  end.

Section Script.
Variable W : world.

(** [Date.now()] *)
Definition date_now : M Z :=
  fun st =>
    (Ok (clock W (ticks st)),
     {| prMap := prMap st; ticks := S (ticks st);
        calls := calls st; failed := failed st; output := output st |}).

(** [daysOpen]; [created] is [new Date(iso)] in milliseconds, and
    [Math.floor] of the quotient is the floor division of [Z]. *)
Definition daysOpen (created : Z) : M Z :=
  now <- date_now ;;
  ret ((now - created) / 86400000).

Definition months : list string :=
  ["Jan"; "Feb"; "Mar"; "Apr"; "May"; "Jun";
   "Jul"; "Aug"; "Sep"; "Oct"; "Nov"; "Dec"].

(** [String(x)] for a number that may be [undefined]. *)
Definition show (x : option Z) : string :=
  match x with
  | Some n => string_of_Z n
  | None => "undefined"
  end.

(** [prettyDate], on the text [toISOString] gives: groups of digits
    separated by "-". *)
Definition prettyDate (iso : string) : string :=
  let parts := map number_of_digits (split "-" iso) in
  let y := nth_error parts 0 in
  let m := nth_error parts 1 in
  let d := nth_error parts 2 in
  let month :=
    match m with
    | Some m =>
        if m - 1 <? 0 then "undefined"
        else nth (Z.to_nat (m - 1)) months "undefined"
    | None => "undefined"
    end in
  month ++ " " ++ show d ++ ", " ++ show y.

(** [data.user?.login || "unknown"] *)
Definition author_of (login : option string) : string :=
  match login with
  | Some s => if (s =? "")%string then "unknown" else s
  | None => "unknown"
  end.

(** [x ?? 0] *)
Definition or_zero (x : option Z) : Z :=
  match x with
  | Some n => n
  | None => 0
  end.

(** The object [addPR] stores in the map. *)
Definition record_of (owner repo : string) (data : pull_data) (days : Z)
  : pr_record :=
  {| pr_repo := owner ++ "/" ++ repo;
     pr_number := data_number data;
     pr_title := data_title data;
     pr_url := html_url data;
     pr_author := author_of (user_login data);
     pr_days := days;
     pr_additions := or_zero (data_additions data);
     pr_deletions := or_zero (data_deletions data);
     pr_draft := data_draft data |}.

(** [e?.status === 404] *)
Definition is_404 (e : exn) : bool :=
  match e with
  | HttpError (Some s) => s =? 404
  | _ => false
  end.

Definition addPR (owner repo : string) (number : Z) : M unit :=
  try_catch
    (remote (CallGet owner repo number) ;;
     data <- await (pulls_get W owner repo number) ;;
     days <- daysOpen (created_at data) ;;
     prMap_set (html_url data) (record_of owner repo data days))
    (fun e => if is_404 e then ret tt else throw e).

Section Collect.
(** The configuration, once read. *)
Variable org : value.
Variables repos users : list value.
Variables MAX_PRS_PER_REPO MAX_TOTAL_PRS MAX_SEARCH_RESULTS_PER_USER : Z.

(** [for (const pr of prs)] of the listing path *)
Fixpoint prs_loop (owner repo : string) (prs : list listing_item)
  : M unit :=
  match prs with
  | [] => ret tt
  | pr :: rest =>
      n <- size ;;
      if MAX_TOTAL_PRS <=? n then ret tt
      else
        match pr with
        | NoItem | Item None => prs_loop owner repo rest
        | Item (Some number) =>
            if number =? 0 then prs_loop owner repo rest
            else addPR owner repo number ;; prs_loop owner repo rest
        end
  end.

(** [page?.data ?? []] *)
Definition page_data (page : listing_page) : list listing_item :=
  match page with
  | Some prs => prs
  | None => []
  end.

(** [for await (const page of github.paginate.iterator(...))]; [i] is
    the index of the next page. *)
Fixpoint pages_loop (owner repo : string) (i : nat)
  (pages : list (exn + listing_page)) : M unit :=
  match pages with
  | [] => ret tt
  | p :: rest =>
      remote (CallList owner repo i) ;;
      page <- await p ;;
      prs_loop owner repo (page_data page) ;;
      pages_loop owner repo (S i) rest
  end.

(** What [String] throws on a value that is not [printable]. *)
Definition conversion_error : exn :=
  TypeError "Cannot convert object to primitive value".

(** [String(v)] in the script *)
Definition String_of (v : value) : M string :=
  if printable v then ret (to_string v) else throw conversion_error.

(** [String(x || "").trim()], the text when [String] returns *)
Definition clean (x : value) : string :=
  trim (to_string (or_else x (VStr ""))).

(** [String(x || "").trim()] in the script *)
Definition cleaned (x : value) : M string :=
  text <- String_of (or_else x (VStr "")) ;;
  ret (trim text).

(** [for (const repoFull of repos)] *)
Fixpoint repos_loop (rs : list value) : M unit :=
  match rs with
  | [] => ret tt
  | repoFull :: rest =>
      n <- size ;;
      if MAX_TOTAL_PRS <=? n then ret tt
      else
        text <- cleaned repoFull ;;
        let parts := split "/" text in
        match nth_error parts 0, nth_error parts 1 with
        | Some owner, Some repo =>
            if (owner =? "")%string || (repo =? "")%string
            then repos_loop rest
            else
              pages_loop owner repo 0 (pulls_list W owner repo) ;;
              repos_loop rest
        | _, _ => repos_loop rest
        end
  end.

(** *** The pattern of a search item's [url]

    [/\/repos\/([^/]+)\/([^/]+)\/issues\/(\d+)$/].  Each greedy group is
    followed by something no character of its class can match ("/"
    after [[^/]+], the end of the input after [\d+]), so giving
    characters back never turns a failure into a match: the longest run
    is the only candidate, and the matcher below takes it. *)

(** A literal of the pattern: the rest of the input after it. *)
Fixpoint literal (lit s : string) : option string :=
  match lit, s with
  | EmptyString, _ => Some s
  | String a lit', String b s' =>
      if Ascii.eqb a b then literal lit' s' else None
  | String _ _, EmptyString => None
  end.

(** A greedy run of the characters of a class, and the rest. *)
Fixpoint run (class : ascii -> bool) (s : string) : string * string :=
  match s with
  | EmptyString => (EmptyString, EmptyString)
  | String c r =>
      if class c then
        let (taken, rest) := run class r in (String c taken, rest)
      else (EmptyString, s)
  end.

Definition not_slash (c : ascii) : bool := negb (Ascii.eqb c "/").

(** [class+]: at least one character. *)
Definition plus (class : ascii -> bool) (s : string)
  : option (string * string) :=
  match run class s with
  | (EmptyString, _) => None
  | (taken, rest) => Some (taken, rest)
  end.

(** The pattern, tried where the input starts. *)
Definition match_here (s : string) : option (string * string * string) :=
  match literal "/repos/" s with
  | None => None
  | Some s1 =>
      match plus not_slash s1 with
      | None => None
      | Some (owner, s2) =>
          match literal "/" s2 with
          | None => None
          | Some s3 =>
              match plus not_slash s3 with
              | None => None
              | Some (repo, s4) =>
                  match literal "/issues/" s4 with
                  | None => None
                  | Some s5 =>
                      match plus is_digit s5 with
                      | Some (number, EmptyString) =>
                          Some (owner, repo, number)
                      | _ => None
                      end
                  end
              end
          end
      end
  end.

(** [url.match(...)]: the first position where the pattern matches,
    from the left; the three groups. *)
Fixpoint url_match (s : string) : option (string * string * string) :=
  match match_here s with
  | Some groups => Some groups
  | None =>
      match s with
      | EmptyString => None
      | String _ r => url_match r
      end
  end.

(** [for (const it of results.slice(0, MAX_SEARCH_RESULTS_PER_USER))].
    [Number(match[3])] of a text of digits is never [NaN]; the test
    [Number.isFinite] fails on [Infinity]. *)
Fixpoint items_loop (items : list search_item) : M unit :=
  match items with
  | [] => ret tt
  | it :: rest =>
      match it with
      | NotObject | SearchItem None => items_loop rest
      | SearchItem (Some url) =>
          if (url =? "")%string then items_loop rest
          else
            match url_match url with
            | None => items_loop rest
            | Some (owner, repo, digits) =>
                match Number_of digits with
                | None => items_loop rest
                | Some number =>
                    addPR owner repo number ;;
                    items_loop rest
                end
            end
      end
  end.

(** The third argument of [github.paginate]:
    [(r) => Array.isArray(r?.data?.items) ? r.data.items : []],
    and the concatenation [paginate] makes of its results. *)
Definition page_items (p : search_page) : list search_item :=
  match p with
  | Some items => items
  | None => []
  end.

Definition paginate_search (q : string) : M (list search_item) :=
  remote (CallSearch q) ;;
  pages <- await (search_issues W q) ;;
  ret (flat_map page_items pages).

(** [for (const userRaw of users)] *)
Fixpoint users_loop (us : list value) : M unit :=
  match us with
  | [] => ret tt
  | userRaw :: rest =>
      n <- size ;;
      if MAX_TOTAL_PRS <=? n then ret tt
      else
        text <- cleaned userRaw ;;
        let user := strip_at text in
        if (user =? "")%string then users_loop rest
        else
          org_text <- String_of org ;;
          let q := "is:pr is:open org:" ++ org_text
                     ++ " author:" ++ user in
          results <- paginate_search q ;;
          items_loop (slice0 MAX_SEARCH_RESULTS_PER_USER results) ;;
          users_loop rest
  end.

(** *** Classification *)

(** [repos.map(r => String(r || "").trim())] in the script: the texts,
    unless [String] throws on an entry. *)
Fixpoint cleaned_all (rs : list value) : M (list string) :=
  match rs with
  | [] => ret []
  | r :: rest =>
      text <- cleaned r ;;
      texts <- cleaned_all rest ;;
      ret (text :: texts)
  end.

(** [new Set(repos.map(r => String(r || "").trim()))], as the list of
    its elements when the conversions return; [has] is equality of
    strings. *)
Definition teamRepoSet : list string := map clean repos.

Definition has (set : list string) (x : string) : bool :=
  existsb (String.eqb x) set.

(** The loop over [prMap.values()]: the two arrays, [teamOwned] and
    [teamNonOwned], each filled by [push]. *)
Definition classify_step (acc : list pr_record * list pr_record)
  (pr : pr_record) : list pr_record * list pr_record :=
  if has teamRepoSet (pr_repo pr)
  then ((fst acc ++ [pr])%list, snd acc)
  else (fst acc, (snd acc ++ [pr])%list).

Definition classify (m : jsmap pr_record)
  : list pr_record * list pr_record :=
  fold_left classify_step (map_values m) ([], []).

(** *** Rendering *)

(** The comparison [(a, b) => b.days - a.days] is not positive. *)
Definition older_first (a b : pr_record) : bool :=
  pr_days b - pr_days a <=? 0.

(** [if (!byRepo[pr.repo]) byRepo[pr.repo] = []; byRepo[pr.repo].push(pr)].
    [byRepo] is an object used as a map; its keys have the form
    [owner/repo], which is no property of [Object.prototype]. *)
Definition group_push (byRepo : jsmap (list pr_record)) (pr : pr_record)
  : jsmap (list pr_record) :=
  match map_get (pr_repo pr) byRepo with
  | None => map_set (pr_repo pr) [pr] byRepo
  | Some repoPRs => map_set (pr_repo pr) (repoPRs ++ [pr])%list byRepo
  end.

Definition group_by_repo (prs : list pr_record) : jsmap (list pr_record) :=
  fold_left group_push prs [].

(** [Object.keys(byRepo).sort()], each key with [byRepo[repo]]. *)
Definition groups (byRepo : jsmap (list pr_record))
  : list (string * list pr_record) :=
  map (fun repo =>
         (repo, match map_get repo byRepo with
                | Some repoPRs => repoPRs
                | None => []
                end))
      (sort String.leb (map_keys byRepo)).

(** The records of a group that are rendered. *)
Definition shown (repoPRs : list pr_record) : list pr_record :=
  slice0 MAX_PRS_PER_REPO repoPRs.

Definition pr_lines (pr : pr_record) : list string :=
  let draft := if pr_draft pr then " 📝(draft)" else "" in
  [ "• <" ++ pr_url pr ++ "|#" ++ string_of_Z (pr_number pr) ++ " "
      ++ pr_title pr ++ ">" ++ draft;
    "  🕒 " ++ string_of_Z (pr_days pr) ++ "d   |   👤 @" ++ pr_author pr
      ++ "   |   🧮 +" ++ string_of_Z (pr_additions pr)
      ++ " / -" ++ string_of_Z (pr_deletions pr);
    "" ].

Definition repo_header (repo : string) (repoPRs : list pr_record)
  : string :=
  "*" ++ repo ++ "* — "
    ++ string_of_Z (Z.of_nat (List.length repoPRs)) ++ " open".

Definition repo_lines (g : string * list pr_record) : list string :=
  ([ ""; repo_header (fst g) (snd g); "" ]
     ++ flat_map pr_lines (shown (snd g)))%list.

Definition section_head (title : string) : list string :=
  [ ""; "━━━━━━━━━━━━━━━━━━━━"; title; "━━━━━━━━━━━━━━━━━━━━"; "" ].

Definition table_head : list string :=
  [ "*PR* | *Age* | *Author* | *Δ*"; "" ].

Definition renderSection (title : string) (prs : list pr_record)
  : list string :=
  match prs with
  | [] => (section_head title ++ [ "_None today 🎉_"; "" ])%list
  | _ :: _ =>
      let sorted := sort older_first prs in
      let byRepo := group_by_repo sorted in
      (section_head title
         ++ table_head
         ++ flat_map repo_lines (groups byRepo))%list
  end.

(** *** Lines 79 to 202: collect, classify, render *)

Definition newline : string := String (ascii_of_nat 10) EmptyString.

Definition digest_head (today : string) : string :=
  "📬 *PR Digest* — " ++ today.

Definition collect : M unit :=
  repos_loop repos ;;
  users_loop users.

(** The conversions of line 133 are made after the two loops; when they
    return, their texts are [teamRepoSet]. *)
Definition digest : M unit :=
  collect ;;
  cleaned_all repos ;;
  fun st =>
    let (teamOwned, teamNonOwned) := classify (prMap st) in
    let today := prettyDate (today_iso W) in
    let out :=
      ([ digest_head today ]
         ++ renderSection "📦 *Team Owned Repos*" teamOwned
         ++ renderSection "🧑‍💻 *Team PRs in Non-Owned Repos*" teamNonOwned)%list
    in
    setOutput (String.concat newline out) st.
End Collect.

(** ** Lines 4 to 40: the configuration *)

(** [x ?? d] for a cap. *)
Definition cap_or (x : option Z) (d : Z) : Z :=
  match x with
  | Some n => n
  | None => d
  end.

(** [try { cfg = JSON.parse(fs.readFileSync(cfgPath, "utf8")) }]: the
    document, or the message of what was thrown. *)
Definition read_config (cfgPath : string) : string + parsed :=
  match file_at W cfgPath with
  | Missing => inl ("ENOENT: no such file or directory, open '" ++ cfgPath ++ "'")
  | Unreadable message => inl message
  | Content text => JSON_parse W text
  end.

(** [fs.existsSync(cfgPath)] *)
Definition existsSync (cfgPath : string) : bool :=
  match file_at W cfgPath with
  | Missing => false
  | _ => true
  end.

Definition dquote : string := String (ascii_of_nat 34) EmptyString.

Definition main : M unit :=
  match env_PR_DIGEST_CONFIG W with
  | None => setFailed "Missing PR_DIGEST_CONFIG environment variable."
  | Some cfgPath =>
      if (cfgPath =? "")%string
      then setFailed "Missing PR_DIGEST_CONFIG environment variable."
      else if negb (existsSync cfgPath)
      then setFailed ("PR digest config file not found: " ++ cfgPath)
      else
        match read_config cfgPath with
        | inl message =>
            setFailed ("Invalid JSON in " ++ cfgPath ++ ": " ++ message)
        | inr PNull =>
            throw (TypeError "Cannot read properties of null (reading 'org')")
        | inr (PDoc cfg) =>
            let org := cfg_org cfg in
            let repos := array_or_empty (cfg_repos cfg) in
            let users := array_or_empty (cfg_users cfg) in
            let MAX_PRS_PER_REPO := cap_or (cfg_max_prs_per_repo cfg) 25 in
            let MAX_TOTAL_PRS := cap_or (cfg_max_total_prs cfg) 200 in
            let MAX_SEARCH_RESULTS_PER_USER :=
              cap_or (cfg_max_search_results_per_user cfg) 500 in
            if negb (truthy org)
            then setFailed (cfgPath ++ " must include " ++ dquote ++ "org" ++ dquote)
            else if (Z.of_nat (List.length repos) =? 0)
                    && (Z.of_nat (List.length users) =? 0)
            then setFailed (cfgPath ++ " must include at least one repo or one user")
            else
              digest org repos users
                MAX_PRS_PER_REPO MAX_TOTAL_PRS MAX_SEARCH_RESULTS_PER_USER
        end
  end.
End Script.

End Digest.

(* ================================================================== *)
(** * Vocabulary of the statements *)
(* ================================================================== *)

Module Spec.
Import Js Platform Digest.

(** A specification of a computation of the script: from a state that
    satisfies [P], it returns in a state that satisfies [Q], or throws in a
    state that satisfies [E]. *)
Definition triple {A : Type} (P : state -> Prop) (m : M A)
  (Q : A -> state -> Prop) (E : exn -> state -> Prop) : Prop :=
  forall st, P st ->
    match m st with
    | (Ok a, st') => Q a st'
    | (Throw e, st') => E e st'
    end.

(** The state a computation ends in, and what it returns or throws. *)
Definition final {A : Type} (m : M A) (st : state) : state := snd (m st).
Definition outcome {A : Type} (m : M A) (st : state) : result A := fst (m st).

(** The states [addPR] can end in. *)

Definition with_call (c : call) (st : state) : state :=
  {| prMap := prMap st; ticks := ticks st;
     calls := (calls st ++ [c])%list; failed := failed st;
     output := output st |}.

Definition days_at (W : world) (st : state) (data : pull_data) : Z :=
  (clock W (ticks st) - created_at data) / 86400000.

Definition stored (W : world) (owner repo : string) (number : Z)
  (data : pull_data) (st : state) : state :=
  {| prMap := map_set (html_url data)
                (record_of owner repo data (days_at W st data)) (prMap st);
     ticks := S (ticks st);
     calls := (calls st ++ [CallGet owner repo number])%list;
     failed := failed st;
     output := output st |}.

(** ** The configuration, as the statements name it *)

Section Configuration.
Variable W : world.

(** The state of a run that only reported [msg] with [core.setFailed]:
    nothing fetched, nothing merged, no output. *)
Definition failed_with (msg : string) : state :=
  {| prMap := []; ticks := 0; calls := []; failed := [msg];
     output := None |}.

(** [PR_DIGEST_CONFIG] is not set, or set to the empty text. *)
Definition source_unspecified : Prop :=
  env_PR_DIGEST_CONFIG W = None \/ env_PR_DIGEST_CONFIG W = Some "".

(** The file named by [PR_DIGEST_CONFIG] does not exist. *)
Definition file_not_found : Prop :=
  exists p, env_PR_DIGEST_CONFIG W = Some p /\ file_at W p = Missing.

(** The file cannot be read, or what it holds is not JSON. *)
Definition content_invalid : Prop :=
  exists p message,
    env_PR_DIGEST_CONFIG W = Some p /\ read_config W p = inl message.

(** The file holds the document [cfg]. *)
Definition holds_document (cfg : config_doc) : Prop :=
  exists p,
    env_PR_DIGEST_CONFIG W = Some p /\ read_config W p = inr (PDoc cfg).

(** The file holds the document [null]. *)
Definition holds_null : Prop :=
  exists p, env_PR_DIGEST_CONFIG W = Some p /\ read_config W p = inr PNull.

(** The document has no [org] (or [org] is [null]). *)
Definition org_absent : Prop :=
  exists cfg, holds_document cfg /\ nullish (cfg_org cfg) = true.

(** The document has no [org], or one that is falsy: [null], [false],
    [0] or the empty text. *)
Definition org_falsy : Prop :=
  exists cfg, holds_document cfg /\ truthy (cfg_org cfg) = false.

(** The document has no repository and no author: each of [repos] and
    [users] is missing, not an array, or an empty array. *)
Definition no_repo_no_user : Prop :=
  exists cfg,
    holds_document cfg
    /\ array_or_empty (cfg_repos cfg) = []
    /\ array_or_empty (cfg_users cfg) = [].

(** The five cases, as the specification lists them. *)
Definition listed_failure : Prop :=
  source_unspecified \/ file_not_found \/ content_invalid
  \/ org_absent \/ no_repo_no_user.

(** The five cases the guards of the script test. *)
Definition guarded_failure : Prop :=
  source_unspecified \/ file_not_found \/ content_invalid
  \/ org_falsy \/ no_repo_no_user.

(** The run reported a failure with [core.setFailed]. *)
Definition reports_failure : Prop :=
  failed (final (main W) initial) <> [].
(** How a run can start: the five guards, the document [null], or an
    accepted configuration. *)
Inductive start : Prop :=
| StartFails (msg : string)
    (Hguard : guarded_failure)
    (Hrun : main W initial = (Ok tt, failed_with msg))
| StartNull (Hnull : holds_null)
    (Hrun : exists e, main W initial = (Throw e, initial))
    (Hclear : ~ guarded_failure)
| StartAccepted (p : string) (cfg : config_doc)
    (Hp : env_PR_DIGEST_CONFIG W = Some p)
    (Hne : p <> "")
    (Hex : existsSync W p = true)
    (Hr : read_config W p = inr (PDoc cfg))
    (Horg : truthy (cfg_org cfg) = true)
    (Hlist : array_or_empty (cfg_repos cfg) <> []
             \/ array_or_empty (cfg_users cfg) <> [])
    (Hclear : ~ guarded_failure).
End Configuration.

(** A configuration file whose [org] is the empty text. *)
Definition doc_empty_org : config_doc :=
  {| cfg_org := VStr "";
     cfg_repos := VArr [VStr "acme/core"];
     cfg_users := VUndef;
     cfg_max_prs_per_repo := None;
     cfg_max_total_prs := None;
     cfg_max_search_results_per_user := None |}.

(** A world with nothing in it but a configuration file [cfg.json] that
    holds [cfg]. *)
Definition world_of (cfg : config_doc) : world :=
  {| env_PR_DIGEST_CONFIG := Some "cfg.json";
     file_at := fun p => if (p =? "cfg.json")%string then Content "{}" else Missing;
     JSON_parse := fun _ => inr (PDoc cfg);
     clock := fun _ => 0;
     today_iso := "2026-01-01";
     pulls_get := fun _ _ _ => inl (HttpError (Some 404));
     pulls_list := fun _ _ => [];
     search_issues := fun _ => inr [] |}.

(** A configuration file whose [repos] is a text and whose [users] is an
    object. *)
Definition doc_no_array : config_doc :=
  {| cfg_org := VStr "acme";
     cfg_repos := VStr "acme/core";
     cfg_users := VObj [("name", VStr "alice")];
     cfg_max_prs_per_repo := None;
     cfg_max_total_prs := None;
     cfg_max_search_results_per_user := None |}.

(** ** Failures of the detail fetch *)

(** The error of a detail fetch that is not a 404, if [c] is one. *)
Definition fatal (W : world) (c : call) : option exn :=
  match c with
  | CallGet owner repo number =>
      match pulls_get W owner repo number with
      | inl e => if is_404 e then None else Some e
      | inr _ => None
      end
  | _ => None
  end.

(** No detail fetch so far has failed with something else than a 404, and
    nothing has been output. *)
Definition no_fatal_call (W : world) (st : state) : Prop :=
  (forall c, In c (calls st) -> fatal W c = None) /\ output st = None.

(** Every such failure so far is the error [e], and nothing has been
    output. *)
Definition aborted_by (W : world) (e : exn) (st : state) : Prop :=
  (forall c e', In c (calls st) -> fatal W c = Some e' -> e' = e)
  /\ output st = None.

(** A world where [acme/core] lists the pull requests 1, 2 and 5; the
    first has disappeared since (404), the detail fetch of any other one
    fails with a status 500. *)
Definition world_gone : world :=
  {| env_PR_DIGEST_CONFIG := Some "cfg.json";
     file_at := fun _ => Content "{}";
     JSON_parse := fun _ =>
       inr (PDoc {| cfg_org := VStr "acme";
                    cfg_repos := VArr [VStr "acme/core"];
                    cfg_users := VArr [];
                    cfg_max_prs_per_repo := None;
                    cfg_max_total_prs := None;
                    cfg_max_search_results_per_user := None |});
     clock := fun _ => 0;
     today_iso := "2026-01-01";
     pulls_get := fun _ _ number =>
       if number =? 1 then inl (HttpError (Some 404))
       else inl (HttpError (Some 500));
     pulls_list := fun _ _ =>
       [inr (Some [Item (Some 1); Item (Some 2); Item (Some 5)])];
     search_issues := fun _ => inr [] |}.

(** ** The locator of a search item *)

(** Every character of [s] is in the class. *)
Fixpoint all (class : ascii -> bool) (s : string) : bool :=
  match s with
  | EmptyString => true
  | String c r => class c && all class r
  end.

(** A segment of a path: not empty, without "/". *)
Definition segment (s : string) : Prop :=
  s <> "" /\ all not_slash s = true.

(** A number in digits: not empty, decimal digits only. *)
Definition digit_string (s : string) : Prop :=
  s <> "" /\ all is_digit s = true.

(** [.../repos/{owner}/{repo}/issues/{number}] *)
Definition locator (prefix owner repo number : string) : string :=
  prefix ++ "/repos/" ++ owner ++ "/" ++ repo ++ "/issues/" ++ number.

(** [url] ends with the pattern, with these three components. *)
Definition has_locator (url owner repo number : string) : Prop :=
  exists prefix,
    url = locator prefix owner repo number
    /\ segment owner /\ segment repo /\ digit_string number.

(** What follows a greedy run is not in the class. *)
Definition stops (class : ascii -> bool) (s : string) : Prop :=
  match s with
  | EmptyString => True
  | String c _ => class c = false
  end.

(** The number of "/" in a text. *)
Fixpoint slashes (s : string) : nat :=
  match s with
  | EmptyString => 0
  | String c r => (if Ascii.eqb c "/" then 1 else 0) + slashes r
  end.

(** ** The merged collection *)

(** Every key of the map occurs once, and every record whose detail fetch
    has succeeded so far has its URL among the keys. *)
Definition merged_once (W : world) (st : state) : Prop :=
  NoDup (map_keys (prMap st))
  /\ forall owner repo number data,
       In (CallGet owner repo number) (calls st) ->
       pulls_get W owner repo number = inr data ->
       In (html_url data) (map_keys (prMap st)).

(** The test of the classification. *)
Definition owned (repos : list value) (pr : pr_record) : bool :=
  has (teamRepoSet repos) (pr_repo pr).

(** A pull request of [acme/core], created at time 0. *)
Definition data_5 : pull_data :=
  {| html_url := "https://github.test/acme/core/pull/5";
     data_number := 5;
     data_title := "Fix the parser";
     user_login := Some "alice";
     created_at := 0;
     data_additions := Some 10;
     data_deletions := Some 2;
     data_draft := false |}.

Definition data_7 : pull_data :=
  {| html_url := "https://github.test/acme/core/pull/7";
     data_number := 7;
     data_title := "Add a cache";
     user_login := None;
     created_at := 0;
     data_additions := None;
     data_deletions := None;
     data_draft := true |}.

(** A configuration whose only repository is written with a space in
    front. *)
Definition doc_spaced : config_doc :=
  {| cfg_org := VStr "acme";
     cfg_repos := VArr [VStr " acme/core"];
     cfg_users := VArr [];
     cfg_max_prs_per_repo := None;
     cfg_max_total_prs := None;
     cfg_max_search_results_per_user := None |}.

(** A world where [acme/core] lists the pull request 5. *)
Definition world_spaced : world :=
  {| env_PR_DIGEST_CONFIG := Some "cfg.json";
     file_at := fun _ => Content "{}";
     JSON_parse := fun _ => inr (PDoc doc_spaced);
     clock := fun _ => 3 * 86400000;
     today_iso := "2026-01-01";
     pulls_get := fun _ _ _ => inr data_5;
     pulls_list := fun _ _ => [inr (Some [Item (Some 5)])];
     search_issues := fun _ => inr [] |}.

(** A configuration with one repository and one author. *)
Definition doc_both : config_doc :=
  {| cfg_org := VStr "acme";
     cfg_repos := VArr [VStr "acme/core"];
     cfg_users := VArr [VStr "@alice"];
     cfg_max_prs_per_repo := None;
     cfg_max_total_prs := None;
     cfg_max_search_results_per_user := None |}.

(** A world where the pull request 5 of [acme/core] is listed in its
    repository and found by the search on its author. *)
Definition world_both : world :=
  {| env_PR_DIGEST_CONFIG := Some "cfg.json";
     file_at := fun _ => Content "{}";
     JSON_parse := fun _ => inr (PDoc doc_both);
     clock := fun _ => 3 * 86400000;
     today_iso := "2026-01-01";
     pulls_get := fun _ _ _ => inr data_5;
     pulls_list := fun _ _ => [inr (Some [Item (Some 5)])];
     search_issues := fun _ =>
       inr [Some [SearchItem
                    (Some "https://api.github.test/repos/acme/core/issues/5")]] |}.

(** ** The order of what is rendered *)




(** The groups of a section, as [renderSection] builds them from its
    argument. *)
Definition groups_of (prs : list pr_record)
  : list (string * list pr_record) :=
  groups (group_by_repo (sort older_first prs)).


(** ** The cap on the collection *)

(** The map holds at most [cap] entries. *)
Definition within_cap (cap : Z) (st : state) : Prop :=
  map_size (prMap st) <= cap.

(** The requests of the pages [i], [i+1], ... of a listing. *)
Fixpoint page_calls {A : Type} (owner repo : string) (i : nat)
  (pages : list A) : list call :=
  match pages with
  | [] => []
  | _ :: rest => CallList owner repo i :: page_calls owner repo (S i) rest
  end.

Definition with_calls (cs : list call) (st : state) : state :=
  {| prMap := prMap st; ticks := ticks st;
     calls := (calls st ++ cs)%list; failed := failed st;
     output := output st |}.

(** No page of the listing fails. *)
Definition all_pages_load (pages : list (exn + listing_page)) : Prop :=
  forall p, In p pages -> exists page, p = inr page.

(** The answer of the detail fetch in the examples: the pull requests 5
    and 7 of [acme/core]. *)
Definition get_5_7 (owner repo : string) (number : Z) : exn + pull_data :=
  if number =? 5 then inr data_5
  else if number =? 7 then inr data_7
  else inl (HttpError (Some 404)).

(** A configuration with one author and a cap of one record. *)
Definition doc_one_author : config_doc :=
  {| cfg_org := VStr "acme";
     cfg_repos := VArr [];
     cfg_users := VArr [VStr "alice"];
     cfg_max_prs_per_repo := None;
     cfg_max_total_prs := Some 1;
     cfg_max_search_results_per_user := None |}.

(** A world where the search on the author finds two pull requests. *)
Definition world_two_found : world :=
  {| env_PR_DIGEST_CONFIG := Some "cfg.json";
     file_at := fun _ => Content "{}";
     JSON_parse := fun _ => inr (PDoc doc_one_author);
     clock := fun _ => 9 * 86400000;
     today_iso := "2026-01-01";
     pulls_get := get_5_7;
     pulls_list := fun _ _ => [];
     search_issues := fun _ =>
       inr [Some
              [SearchItem
                 (Some "https://api.github.test/repos/acme/core/issues/5");
               SearchItem
                 (Some "https://api.github.test/repos/acme/core/issues/7")]] |}.

(** A configuration with one repository and a cap of one record. *)
Definition doc_one_repo : config_doc :=
  {| cfg_org := VStr "acme";
     cfg_repos := VArr [VStr "acme/core"];
     cfg_users := VArr [];
     cfg_max_prs_per_repo := None;
     cfg_max_total_prs := Some 1;
     cfg_max_search_results_per_user := None |}.

(** A world where the listing of the repository has two pages, of one
    pull request each. *)
Definition world_two_pages : world :=
  {| env_PR_DIGEST_CONFIG := Some "cfg.json";
     file_at := fun _ => Content "{}";
     JSON_parse := fun _ => inr (PDoc doc_one_repo);
     clock := fun _ => 9 * 86400000;
     today_iso := "2026-01-01";
     pulls_get := get_5_7;
     pulls_list := fun _ _ =>
       [inr (Some [Item (Some 5)]); inr (Some [Item (Some 7)])];
     search_issues := fun _ => inr [] |}.


(** ** The example of the specification

    The configuration [{org: "acme", repos: ["acme/core"],
    max_total_prs: 10}]; the listing of [acme/core] returns the pull
    requests 5, three days old, and 7, nine days old. *)
Definition doc_example : config_doc :=
  {| cfg_org := VStr "acme";
     cfg_repos := VArr [VStr "acme/core"];
     cfg_users := VUndef;
     cfg_max_prs_per_repo := None;
     cfg_max_total_prs := Some 10;
     cfg_max_search_results_per_user := None |}.

Definition world_example : world :=
  {| env_PR_DIGEST_CONFIG := Some "cfg.json";
     file_at := fun _ => Content "{}";
     JSON_parse := fun _ => inr (PDoc doc_example);
     clock := fun _ => 9 * 86400000;
     today_iso := "2026-01-01";
     pulls_get := fun _ _ number =>
       if number =? 5
       then inr {| html_url := html_url data_5;
                   data_number := 5;
                   data_title := data_title data_5;
                   user_login := user_login data_5;
                   created_at := 6 * 86400000;
                   data_additions := data_additions data_5;
                   data_deletions := data_deletions data_5;
                   data_draft := false |}
       else get_5_7 "acme" "core" number;
     pulls_list := fun _ _ => [inr (Some [Item (Some 5); Item (Some 7)])];
     search_issues := fun _ => inr [] |}.
(** ** Conversions *)

(** [String(x || "")] returns. *)
Definition can_clean (x : value) : bool := printable (or_else x (VStr "")).

(** The value of a text of digits read in base ten, by the reader of
    decimal numerals of the standard library. *)
Definition decimal_value (s : string) : Z :=
  match NilEmpty.uint_of_string s with
  | Some u => Z.of_uint u
  | None => 0
  end.

(** Up to [2^53] every natural number is a double. *)
Definition exact_limit : Z := 9007199254740992.

(** A locator whose number is [2^53 + 1]. *)
Definition url_long : string :=
  "https://api.x.test/repos/foo/bar/issues/9007199254740993".

(** A number of [k] digits 9. *)
Fixpoint nines (k : nat) : string :=
  match k with
  | O => ""
  | S k' => String "9" (nines k')
  end.

(** ** The same pull request under two spellings of its repository *)

(** A configuration that names the repository [Acme/Core] and one
    author. *)
Definition doc_case : config_doc :=
  {| cfg_org := VStr "acme";
     cfg_repos := VArr [VStr "Acme/Core"];
     cfg_users := VArr [VStr "alice"];
     cfg_max_prs_per_repo := None;
     cfg_max_total_prs := None;
     cfg_max_search_results_per_user := None |}.

(** A world where the platform answers for [Acme/Core] and for
    [acme/core] alike, and the search gives the locator in small
    letters. *)
Definition world_case : world :=
  {| env_PR_DIGEST_CONFIG := Some "cfg.json";
     file_at := fun _ => Content "{}";
     JSON_parse := fun _ => inr (PDoc doc_case);
     clock := fun _ => 3 * 86400000;
     today_iso := "2026-01-01";
     pulls_get := fun _ _ _ => inr data_5;
     pulls_list := fun _ _ => [inr (Some [Item (Some 5)])];
     search_issues := fun _ =>
       inr [Some [SearchItem
                    (Some "https://api.github.test/repos/acme/core/issues/5")]] |}.


End Spec.

(* ================================================================== *)
(** * Vocabulary of the further statements *)
(* ================================================================== *)

Module Cover.
Import Js Platform Digest Spec.

(** ** A run, once the configuration is accepted *)

(** The configuration file at [p] holds [cfg], and the guards accept it. *)
Definition accepted (W : world) (p : string) (cfg : config_doc) : Prop :=
  env_PR_DIGEST_CONFIG W = Some p
  /\ p <> ""
  /\ existsSync W p = true
  /\ read_config W p = inr (PDoc cfg)
  /\ truthy (cfg_org cfg) = true
  /\ (array_or_empty (cfg_repos cfg) <> []
      \/ array_or_empty (cfg_users cfg) <> []).

Definition total_cap (cfg : config_doc) : Z :=
  cap_or (cfg_max_total_prs cfg) 200.

Definition search_cap (cfg : config_doc) : Z :=
  cap_or (cfg_max_search_results_per_user cfg) 500.

Definition repo_cap (cfg : config_doc) : Z :=
  cap_or (cfg_max_prs_per_repo cfg) 25.

(** The two loops of the run, from the start. *)
Definition collected (W : world) (cfg : config_doc) : result unit * state :=
  collect W (cfg_org cfg)
    (array_or_empty (cfg_repos cfg)) (array_or_empty (cfg_users cfg))
    (total_cap cfg) (search_cap cfg) initial.

(** The text of the digest for a merged collection. *)
Definition digest_text (W : world) (repos : list value) (cap : Z)
  (m : jsmap pr_record) : string :=
  let (teamOwned, teamNonOwned) := classify repos m in
  String.concat newline
    ([ digest_head (prettyDate (today_iso W)) ]
       ++ renderSection cap "📦 *Team Owned Repos*" teamOwned
       ++ renderSection cap "🧑‍💻 *Team PRs in Non-Owned Repos*"
            teamNonOwned)%list.

Definition with_output (text : string) (st : state) : state :=
  {| prMap := prMap st; ticks := ticks st; calls := calls st;
     failed := failed st; output := Some text |}.

(** What the rest of the script makes of the two loops: the digest, unless
    an entry of [repos] cannot be converted to text at line 133. *)
Definition finish (W : world) (repos : list value) (cap : Z)
  (r : result unit * state) : result unit * state :=
  match r with
  | (Ok _, st) =>
      if forallb can_clean repos
      then (Ok tt, with_output (digest_text W repos cap (prMap st)) st)
      else (Throw conversion_error, st)
  | (Throw e, st) => (Throw e, st)
  end.

(** ** Where the entries of the map come from *)

(** The entry [(k, v)] was written by a detail fetch of this run that
    succeeded: [k] is the URL of the answer and [v] the record made of it,
    with the age read at one of the calls of [Date.now()]. *)
Definition fetched (W : world) (st : state) (k : string) (v : pr_record)
  : Prop :=
  exists owner repo number data t,
    In (CallGet owner repo number) (calls st)
    /\ pulls_get W owner repo number = inr data
    /\ k = html_url data
    /\ v = record_of owner repo data
             ((clock W t - created_at data) / 86400000)
    /\ (t < ticks st)%nat.

(** The bound on the collection when authors are searched. *)
Definition overshoot (cap per_author : Z) : Z :=
  Z.max cap (cap - 1 + per_author).

(** ** Entries of the configuration that are skipped *)

(** [!owner || !repo] *)
Definition skipped_repo (entry : value) : bool :=
  match split "/" (clean entry) with
  | owner :: repo :: _ => (owner =? "")%string || (repo =? "")%string
  | _ => true
  end.

(** [!user] *)
Definition skipped_user (entry : value) : bool :=
  (strip_at (clean entry) =? "")%string.

(** A configuration with a cap of zero records. *)
Definition doc_cap_zero : config_doc :=
  {| cfg_org := VStr "acme";
     cfg_repos := VArr [VStr "acme/core"];
     cfg_users := VArr [VStr "alice"];
     cfg_max_prs_per_repo := None;
     cfg_max_total_prs := Some 0;
     cfg_max_search_results_per_user := None |}.

(** A configuration with a cap of zero records and a repository that
    [String] cannot convert. *)
Definition doc_cap_zero_object : config_doc :=
  {| cfg_org := VStr "acme";
     cfg_repos := VArr [VObj [("toString", VNum 1)]];
     cfg_users := VArr [];
     cfg_max_prs_per_repo := None;
     cfg_max_total_prs := Some 0;
     cfg_max_search_results_per_user := None |}.

(** A configuration whose entries are all skipped: a repository without
    owner, one without name, a blank author and an author that is only
    "@". *)
Definition doc_skipped : config_doc :=
  {| cfg_org := VStr "acme";
     cfg_repos := VArr [VStr "core"; VStr "acme/"; VNull];
     cfg_users := VArr [VStr "  "; VStr " @ "];
     cfg_max_prs_per_repo := None;
     cfg_max_total_prs := None;
     cfg_max_search_results_per_user := None |}.

(** The world of the examples, with another configuration file. *)
Definition world_with (cfg : config_doc) : world :=
  {| env_PR_DIGEST_CONFIG := Some "cfg.json";
     file_at := fun _ => Content "{}";
     JSON_parse := fun _ => inr (PDoc cfg);
     clock := fun _ => 9 * 86400000;
     today_iso := "2026-01-01";
     pulls_get := get_5_7;
     pulls_list := fun _ _ =>
       [inr (Some [Item (Some 5)]); inr (Some [Item (Some 7)])];
     search_issues := fun _ =>
       inr [Some
              [SearchItem
                 (Some "https://api.github.test/repos/acme/core/issues/5");
               SearchItem
                 (Some "https://api.github.test/repos/acme/core/issues/7")]] |}.

(** ** What a section renders *)




(** ** Texts *)

(** No character of [s] is [sep]. *)
Definition without (sep : ascii) (s : string) : bool :=
  all (fun c => negb (Ascii.eqb c sep)) s.

(** The entry names a repository as [owner/repo], with one "/". *)
Definition one_slash (entry : value) : Prop :=
  (slashes (clean entry) <= 1)%nat.

(** ** Remote calls that fail *)

(** The error a remote call stops the run with, if it does: the error of
    a page of a listing or of a search, or the error of a detail fetch that
    is not a 404. *)
Definition answer_error (W : world) (c : call) : option exn :=
  match c with
  | CallList owner repo i =>
      match nth_error (pulls_list W owner repo) i with
      | Some (inl e) => Some e
      | _ => None
      end
  | CallGet owner repo number =>
      match pulls_get W owner repo number with
      | inl e => if is_404 e then None else Some e
      | inr _ => None
      end
  | CallSearch q =>
      match search_issues W q with
      | inl e => Some e
      | inr _ => None
      end
  end.

(** No call so far has stopped the run. *)
Definition all_answered (W : world) (st : state) : Prop :=
  forall c, In c (calls st) -> answer_error W c = None.

(** The last call so far has failed with [e], the ones before it have
    not stopped the run. *)
Definition stopped_by (W : world) (e : exn) (st : state) : Prop :=
  exists before c,
    calls st = (before ++ [c])%list
    /\ (forall c', In c' before -> answer_error W c' = None)
    /\ answer_error W c = Some e.

(** What has been thrown comes from the last call, or from something that
    is not a call while no call has failed. *)
Definition thrown_at (W : world) (e : exn) (st : state) : Prop :=
  stopped_by W e st \/ all_answered W st.

(** A world where the listing of the repository answers 404. *)
Definition world_no_repo : world :=
  {| env_PR_DIGEST_CONFIG := Some "cfg.json";
     file_at := fun _ => Content "{}";
     JSON_parse := fun _ => inr (PDoc doc_one_repo);
     clock := fun _ => 0;
     today_iso := "2026-01-01";
     pulls_get := get_5_7;
     pulls_list := fun _ _ => [inl (HttpError (Some 404))];
     search_issues := fun _ => inr [] |}.

(** ** The searches of a run *)

(** The query of the search for an author, as line 108 writes it. *)
Definition query_for (org : value) (entry : value) : string :=
  "is:pr is:open org:" ++ to_string org
    ++ " author:" ++ strip_at (clean entry).

(** The query is the one of an author of [users] that is not skipped. *)
Definition asked_for (org : value) (users : list value) (q : string)
  : Prop :=
  exists entry,
    In entry users /\ skipped_user entry = false /\ q = query_for org entry.

(** Every search so far is for an author of [users]. *)
Definition searches_from (org : value) (users : list value) (st : state)
  : Prop :=
  forall q, In (CallSearch q) (calls st) -> asked_for org users q.

End Cover.
(* ================================================================== *)
(** * Facts on the built-ins *)
(* ================================================================== *)

Module JsFacts.
Import Js.

(** ** [Map] *)

Section JsMapFacts.
Context {V : Type}.
Implicit Types (m : jsmap V) (k : string) (v : V).

Lemma map_get_set_same k v m : map_get k (map_set k v m) = Some v.
Proof.
  induction m as [|[k' v'] m IH]; simpl.
  - now rewrite String.eqb_refl.
  - destruct (String.eqb k k') eqn:E; simpl.
    + now rewrite String.eqb_refl.
    + now rewrite E.
Qed.


Lemma map_get_In k m : map_get k m <> None <-> In k (map_keys m).
Proof.
  induction m as [|[k' v'] m IH]; simpl.
  - tauto.
  - destruct (String.eqb k k') eqn:E.
    + apply String.eqb_eq in E. subst. split; [auto | discriminate].
    + apply String.eqb_neq in E. rewrite IH. split; [auto|].
      intros [H|H]; [congruence | assumption].
Qed.

Lemma map_get_None k m : map_get k m = None <-> ~ In k (map_keys m).
Proof.
  rewrite <- map_get_In. destruct (map_get k m); split; try congruence.
  intros H. exfalso. apply H. discriminate.
Qed.

(** [set] on a key that is present keeps the keys as they are. *)
Lemma map_keys_set_present k v m :
  In k (map_keys m) -> map_keys (map_set k v m) = map_keys m.
Proof.
  induction m as [|[k' v'] m IH]; simpl; [tauto|].
  intros H. destruct (String.eqb k k') eqn:E; simpl.
  - apply String.eqb_eq in E. now subst.
  - apply String.eqb_neq in E. f_equal. apply IH.
    destruct H; [congruence | assumption].
Qed.

(** [set] on a new key adds it at the end. *)
Lemma map_keys_set_absent k v m :
  ~ In k (map_keys m) -> map_keys (map_set k v m) = (map_keys m ++ [k])%list.
Proof.
  induction m as [|[k' v'] m IH]; simpl; [reflexivity|].
  intros H. destruct (String.eqb k k') eqn:E; simpl.
  - apply String.eqb_eq in E. subst. tauto.
  - f_equal. apply IH. tauto.
Qed.

Lemma map_keys_set_In k k' v m :
  In k' (map_keys (map_set k v m)) <-> k' = k \/ In k' (map_keys m).
Proof.
  destruct (in_dec string_dec k (map_keys m)) as [Hin|Hout].
  - rewrite map_keys_set_present by assumption.
    split; [auto | intros [-> | H]; assumption].
  - rewrite map_keys_set_absent by assumption.
    rewrite in_app_iff. simpl. intuition.
Qed.

Lemma map_set_NoDup k v m :
  NoDup (map_keys m) -> NoDup (map_keys (map_set k v m)).
Proof.
  intros Hnd.
  destruct (in_dec string_dec k (map_keys m)) as [Hin|Hout].
  - now rewrite map_keys_set_present.
  - rewrite map_keys_set_absent by assumption.
    apply NoDup_app; [assumption | repeat constructor; simpl; tauto |].
    intros x Hx [<-|[]]. contradiction.
Qed.

Lemma map_size_set_present k v m :
  In k (map_keys m) -> map_size (map_set k v m) = map_size m.
Proof.
  intros H. unfold map_size.
  rewrite <- (length_map fst (map_set k v m)), <- (length_map fst m).
  fold (map_keys (map_set k v m)) (map_keys m).
  now rewrite map_keys_set_present.
Qed.

Lemma map_size_set_absent k v m :
  ~ In k (map_keys m) -> map_size (map_set k v m) = map_size m + 1.
Proof.
  intros H. unfold map_size.
  rewrite <- (length_map fst (map_set k v m)), <- (length_map fst m).
  fold (map_keys (map_set k v m)) (map_keys m).
  rewrite map_keys_set_absent by assumption.
  rewrite length_app. simpl. lia.
Qed.

Lemma map_size_set_le k v m :
  map_size m <= map_size (map_set k v m) <= map_size m + 1.
Proof.
  destruct (in_dec string_dec k (map_keys m)) as [Hin|Hout].
  - rewrite map_size_set_present by assumption. lia.
  - rewrite map_size_set_absent by assumption. lia.
Qed.

(** Writing again what is stored changes nothing. *)
Lemma map_set_same k v m : map_get k m = Some v -> map_set k v m = m.
Proof.
  induction m as [|[k' v'] m IH]; simpl; [discriminate|].
  destruct (String.eqb k k') eqn:E.
  - apply String.eqb_eq in E. subst. now intros [= ->].
  - intros H. now rewrite IH.
Qed.

Lemma NoDup_count_occ_one k (l : list string) :
  NoDup l -> In k l -> count_occ string_dec l k = 1%nat.
Proof.
  intros Hnd Hin.
  pose proof (proj1 (NoDup_count_occ string_dec l) Hnd k) as Hle.
  pose proof (proj1 (count_occ_In string_dec l k) Hin) as Hge.
  lia.
Qed.
End JsMapFacts.

(** ** The order of strings *)








(** ** [sort] *)

Section SortFacts.
Context {A : Type} (le : A -> A -> bool).
Hypothesis le_total : forall a b, le a b = true \/ le b a = true.
Hypothesis le_trans :
  forall a b c, le a b = true -> le b c = true -> le a c = true.




End SortFacts.



(** ** [slice] *)

Lemma slice0_prefix {A} n (xs : list A) :
  exists k, slice0 n xs = firstn k xs.
Proof. unfold slice0. destruct (n <? 0); eauto. Qed.

Lemma slice0_app {A} n (xs : list A) :
  exists dropped, xs = (slice0 n xs ++ dropped)%list.
Proof.
  destruct (slice0_prefix n xs) as [k ->].
  exists (skipn k xs). now rewrite firstn_skipn.
Qed.

Lemma slice0_length {A} n (xs : list A) :
  0 <= n -> Z.of_nat (List.length (slice0 n xs)) <= n.
Proof.
  intros Hn. unfold slice0.
  destruct (n <? 0) eqn:E; [apply Z.ltb_lt in E; lia|].
  rewrite length_firstn. lia.
Qed.


End JsFacts.

(* ================================================================== *)
(** * Facts on the pattern of the locator *)
(* ================================================================== *)

Module UrlFacts.
Import Js Platform Digest Spec.

Lemma append_nil_r s : s ++ "" = s.
Proof. induction s; simpl; congruence. Qed.

Lemma append_assoc s t u : (s ++ t) ++ u = s ++ (t ++ u).
Proof. induction s; simpl; congruence. Qed.

Lemma literal_app lit s : literal lit (lit ++ s) = Some s.
Proof.
  induction lit as [|a lit IH]; simpl.
  - now destruct s.
  - now rewrite Ascii.eqb_refl.
Qed.

Lemma literal_sound lit s r : literal lit s = Some r -> s = lit ++ r.
Proof.
  revert s. induction lit as [|a lit IH]; intros [|b s]; simpl;
    try congruence.
  destruct (Ascii.eqb a b) eqn:E; [|discriminate].
  apply Ascii.eqb_eq in E. subst b. intros H. f_equal. now apply IH.
Qed.

Lemma run_app class a b :
  all class a = true -> stops class b -> run class (a ++ b) = (a, b).
Proof.
  intros Ha Hb. induction a as [|c a IH]; simpl in *.
  - destruct b as [|c b]; [reflexivity|]. simpl in *. now rewrite Hb.
  - apply andb_prop in Ha. destruct Ha as [Hc Ha].
    rewrite Hc, (IH Ha). reflexivity.
Qed.

Lemma run_sound class s t r :
  run class s = (t, r) -> s = t ++ r /\ all class t = true /\ stops class r.
Proof.
  revert t r. induction s as [|c s IH]; simpl; intros t r H.
  - injection H as <- <-. simpl. auto.
  - destruct (class c) eqn:Hc.
    + destruct (run class s) as [t' r'] eqn:Hrun.
      injection H as <- <-. destruct (IH _ _ eq_refl) as [-> [Ht Hr]].
      simpl. rewrite Hc. auto.
    + injection H as <- <-. simpl. auto.
Qed.

Lemma plus_app class a b :
  a <> "" -> all class a = true -> stops class b ->
  plus class (a ++ b) = Some (a, b).
Proof.
  intros Hne Ha Hb. unfold plus. rewrite run_app by assumption.
  destruct a; congruence.
Qed.

Lemma plus_sound class s t r :
  plus class s = Some (t, r) ->
  s = t ++ r /\ t <> "" /\ all class t = true /\ stops class r.
Proof.
  unfold plus. destruct (run class s) as [t' r'] eqn:Hrun.
  destruct t' as [|c t']; [discriminate|].
  intros [= <- <-]. apply run_sound in Hrun.
  destruct Hrun as [-> [Ht Hr]]. repeat split; auto. discriminate.
Qed.

(** *** The pattern where the input starts *)

Lemma match_here_sound s owner repo number :
  match_here s = Some (owner, repo, number) ->
  s = locator "" owner repo number
  /\ segment owner /\ segment repo /\ digit_string number.
Proof.
  unfold match_here.
  destruct (literal "/repos/" s) as [s1|] eqn:H1; [|discriminate].
  destruct (plus not_slash s1) as [[o s2]|] eqn:H2; [|discriminate].
  destruct (literal "/" s2) as [s3|] eqn:H3; [|discriminate].
  destruct (plus not_slash s3) as [[r s4]|] eqn:H4; [|discriminate].
  destruct (literal "/issues/" s4) as [s5|] eqn:H5; [|discriminate].
  destruct (plus is_digit s5) as [[n s6]|] eqn:H6; [|discriminate].
  destruct s6; [|discriminate].
  intros [= <- <- <-].
  apply literal_sound in H1, H3, H5.
  apply plus_sound in H2, H4, H6.
  destruct H2 as [-> [? [? _]]], H4 as [-> [? [? _]]], H6 as [-> [? [? _]]].
  subst. unfold locator, segment, digit_string.
  rewrite append_nil_r. simpl. auto 10.
Qed.

Lemma match_here_complete owner repo number :
  segment owner -> segment repo -> digit_string number ->
  match_here (locator "" owner repo number) = Some (owner, repo, number).
Proof.
  intros [Ho1 Ho2] [Hr1 Hr2] [Hn1 Hn2].
  unfold match_here, locator.
  change ("" ++ "/repos/" ++ owner ++ "/" ++ repo ++ "/issues/" ++ number)
    with ("/repos/" ++ (owner ++ "/" ++ repo ++ "/issues/" ++ number)).
  rewrite literal_app.
  rewrite plus_app by (auto; reflexivity).
  rewrite literal_app.
  rewrite plus_app by (auto; reflexivity).
  rewrite literal_app.
  rewrite <- (append_nil_r number) at 1.
  rewrite plus_app by (auto; exact I).
  reflexivity.
Qed.

(** *** Counting "/" *)

Lemma slashes_app s t : slashes (s ++ t) = (slashes s + slashes t)%nat.
Proof. induction s as [|c s IH]; simpl; [reflexivity | rewrite IH; lia]. Qed.

Lemma slashes_segment s : all not_slash s = true -> slashes s = 0%nat.
Proof.
  induction s as [|c s IH]; simpl; [reflexivity|].
  intros H. apply andb_prop in H. destruct H as [Hc Hs].
  unfold not_slash in Hc. apply negb_true_iff in Hc. rewrite Hc. auto.
Qed.

Lemma digit_not_slash c : is_digit c = true -> not_slash c = true.
Proof.
  unfold not_slash. destruct (Ascii.eqb c "/") eqn:E; [|reflexivity].
  apply Ascii.eqb_eq in E. subst c. discriminate.
Qed.

Lemma slashes_digits s : all is_digit s = true -> slashes s = 0%nat.
Proof.
  intros H. apply slashes_segment.
  induction s as [|c s IH]; simpl in *; [reflexivity|].
  apply andb_prop in H. destruct H as [Hc Hs].
  now rewrite (digit_not_slash c Hc), IH.
Qed.

Lemma slashes_locator prefix owner repo number :
  segment owner -> segment repo -> digit_string number ->
  slashes (locator prefix owner repo number) = (slashes prefix + 5)%nat.
Proof.
  intros [_ Ho] [_ Hr] [_ Hn]. unfold locator.
  rewrite !slashes_app, (slashes_segment _ Ho), (slashes_segment _ Hr),
    (slashes_digits _ Hn).
  simpl. lia.
Qed.

(** The pattern has exactly five "/" and ends the input: it cannot match
    before the fifth "/" from the end. *)
Lemma match_here_early c prefix owner repo number :
  segment owner -> segment repo -> digit_string number ->
  match_here (String c (locator prefix owner repo number)) = None.
Proof.
  intros Ho Hr Hn.
  destruct (match_here (String c (locator prefix owner repo number)))
    as [[[o r] n]|] eqn:Hm; [|reflexivity].
  exfalso.
  assert (Hc : c = "/"%char).
  { unfold match_here in Hm.
    destruct (literal "/repos/" (String c (locator prefix owner repo number)))
      as [s1|] eqn:H1; [|discriminate].
    apply literal_sound in H1. simpl in H1. now injection H1. }
  apply match_here_sound in Hm. destruct Hm as [Heq [Ho' [Hr' Hn']]].
  apply (f_equal slashes) in Heq.
  rewrite (slashes_locator "" o r n) in Heq by assumption.
  simpl in Heq. rewrite (slashes_locator prefix owner repo number) in Heq
    by assumption.
  subst c. simpl in Heq. lia.
Qed.

(** *** The first match from the left *)

Lemma url_match_here s groups :
  match_here s = Some groups -> url_match s = Some groups.
Proof. intros H. destruct s; cbn [url_match]; now rewrite H. Qed.

Lemma url_match_complete prefix owner repo number :
  segment owner -> segment repo -> digit_string number ->
  url_match (locator prefix owner repo number) = Some (owner, repo, number).
Proof.
  intros Ho Hr Hn. induction prefix as [|c prefix IH].
  - apply url_match_here. now apply match_here_complete.
  - change (locator (String c prefix) owner repo number)
      with (String c (locator prefix owner repo number)).
    cbn [url_match].
    now rewrite match_here_early.
Qed.

Lemma url_match_sound url owner repo number :
  url_match url = Some (owner, repo, number) ->
  has_locator url owner repo number.
Proof.
  induction url as [|c url IH]; cbn [url_match].
  - destruct (match_here "") as [g|] eqn:Hm; [|discriminate].
    discriminate Hm.
  - destruct (match_here (String c url)) as [g|] eqn:Hm.
    + intros [= ->]. apply match_here_sound in Hm.
      destruct Hm as [Heq H]. now exists "".
    + intros H. destruct (IH H) as [prefix [-> Hrest]].
      now exists (String c prefix).
Qed.

Lemma url_match_iff url owner repo number :
  has_locator url owner repo number
  <-> url_match url = Some (owner, repo, number).
Proof.
  split; [|apply url_match_sound].
  intros [prefix [-> [Ho [Hr Hn]]]]. now apply url_match_complete.
Qed.

Lemma url_match_none url :
  (forall owner repo number, ~ has_locator url owner repo number) ->
  url_match url = None.
Proof.
  intros H. destruct (url_match url) as [[[o r] n]|] eqn:Hm; [|reflexivity].
  apply url_match_sound in Hm. now apply H in Hm.
Qed.
(** ** Numbers in digits *)

Lemma digits_fold_acc u acc :
  fold_left (fun a c => 10 * a + digit_val c)
    (list_ascii_of_string (NilEmpty.string_of_uint u)) (Z.pos acc)
  = Z.pos (Pos.of_uint_acc u acc).
Proof.
  revert acc. induction u; intros acc; cbn [NilEmpty.string_of_uint
    list_ascii_of_string fold_left Pos.of_uint_acc];
    [reflexivity| |  | | | | | | | |];
    rewrite <- IHu; f_equal;
    match goal with
    | |- context [digit_val ?c] =>
        let v := eval vm_compute in (digit_val c) in
        change (digit_val c) with v
    end; lia.
Qed.

Lemma digits_fold u :
  fold_left (fun a c => 10 * a + digit_val c)
    (list_ascii_of_string (NilEmpty.string_of_uint u)) 0
  = Z.of_N (Pos.of_uint u).
Proof.
  induction u; cbn [NilEmpty.string_of_uint list_ascii_of_string fold_left
    Pos.of_uint]; [reflexivity | exact IHu | | | | | | | | |];
    apply (digits_fold_acc u).
Qed.

Lemma digits_of_uint u : all is_digit (NilEmpty.string_of_uint u) = true.
Proof. induction u; simpl; auto. Qed.

(** [Number(String(n)) = n], and [String(n)] is made of digits. *)
Lemma number_of_string_of_Z n :
  0 <= n ->
  number_of_digits (string_of_Z n) = n /\ digit_string (string_of_Z n).
Proof.
  intros Hn. destruct n as [|p|p]; [| |lia].
  - split; [reflexivity|]. split; [discriminate | reflexivity].
  - unfold string_of_Z, number_of_digits. cbn [Z.to_int NilZero.string_of_int].
    unfold NilZero.string_of_uint.
    pose proof (Unsigned.to_uint_nonnil p) as Hnil.
    pose proof (Unsigned.of_to p) as Hof.
    destruct (Pos.to_uint p) eqn:Hu; [congruence| | | | | | | | | |];
      rewrite <- Hu in *; rewrite digits_fold, Hof;
      (split; [reflexivity|]); rewrite Hu;
      (split; [discriminate | apply digits_of_uint]).
Qed.

(** A text of digits is a decimal numeral, and the script reads its
    value. *)
Lemma digits_parse s :
  all is_digit s = true -> exists u, NilEmpty.uint_of_string s = Some u.
Proof.
  induction s as [|c s IH]; simpl; [now exists Decimal.Nil|].
  intros H. apply andb_prop in H. destruct H as [Hc Hs].
  destruct (IH Hs) as [u ->].
  destruct c as [[] [] [] [] [] [] [] []]; try discriminate Hc;
    eexists; reflexivity.
Qed.

Lemma number_of_digits_decimal s :
  all is_digit s = true -> number_of_digits s = decimal_value s.
Proof.
  intros H. destruct (digits_parse s H) as [u Hu].
  unfold decimal_value. rewrite Hu.
  apply NilEmpty.sus in Hu. subst s.
  unfold number_of_digits. now rewrite digits_fold.
Qed.

(** ** Doubles *)

Lemma nearest_double_exact n :
  n <= exact_limit -> nearest_double n = Some n.
Proof.
  unfold exact_limit, nearest_double. intros Hn.
  change (2 ^ 53) with 9007199254740992.
  destruct (Z.ltb_spec n 9007199254740992) as [Hlt|Hge]; [reflexivity|].
  assert (n = 9007199254740992) by lia. subst n. reflexivity.
Qed.

Lemma Number_of_exact s :
  all is_digit s = true -> decimal_value s <= exact_limit ->
  Number_of s = Some (decimal_value s).
Proof.
  intros Hs Hn. unfold Number_of.
  rewrite (number_of_digits_decimal s Hs). now apply nearest_double_exact.
Qed.

End UrlFacts.

(* ================================================================== *)
(** * Facts on the script *)
(* ================================================================== *)

Module DigestFacts.
Import Js Platform Digest Spec JsFacts.
Local Open Scope script_scope.

(** ** Rules for [triple] *)

Section Rules.
Context {A B : Type}.
Implicit Types (P : state -> Prop) (E : exn -> state -> Prop).

Lemma triple_ret P (Q : A -> state -> Prop) E (a : A) :
  (forall st, P st -> Q a st) -> triple P (ret a) Q E.
Proof. intros H st HP. simpl. auto. Qed.

Lemma triple_throw P (Q : A -> state -> Prop) E e :
  (forall st, P st -> E e st) -> triple P (throw e) Q E.
Proof. intros H st HP. simpl. auto. Qed.

Lemma triple_bind P (m : M A) (Q : A -> state -> Prop) (k : A -> M B)
  (R : B -> state -> Prop) E :
  triple P m Q E ->
  (forall a, triple (Q a) (k a) R E) ->
  triple P (bind m k) R E.
Proof.
  intros Hm Hk st HP. unfold bind.
  specialize (Hm st HP). destruct (m st) as [[a|e] st']; [|exact Hm].
  apply (Hk a st' Hm).
Qed.

Lemma triple_weaken P P' (m : M A) (Q Q' : A -> state -> Prop) E E' :
  triple P' m Q' E' ->
  (forall st, P st -> P' st) ->
  (forall a st, Q' a st -> Q a st) ->
  (forall e st, E' e st -> E e st) ->
  triple P m Q E.
Proof.
  intros Hm HP HQ HE st Hst. specialize (Hm st (HP st Hst)).
  destruct (m st) as [[a|e] st']; auto.
Qed.

Lemma triple_try_catch P (body : M A) (Q : A -> state -> Prop)
  (handler : exn -> M A) (C : exn -> state -> Prop) E :
  triple P body Q C ->
  (forall e, triple (C e) (handler e) Q E) ->
  triple P (try_catch body handler) Q E.
Proof.
  intros Hb Hh st HP. unfold try_catch.
  specialize (Hb st HP). destruct (body st) as [[a|e] st']; [exact Hb|].
  apply (Hh e st' Hb).
Qed.
End Rules.

(** ** The primitives *)

Lemma triple_size P E :
  triple P size (fun n st => P st /\ n = map_size (prMap st)) E.
Proof. intros st HP. simpl. auto. Qed.

Lemma triple_await {A} P E (r : exn + A) :
  (forall e st, r = inl e -> P st -> E e st) ->
  triple P (await r) (fun a st => P st /\ r = inr a) E.
Proof.
  intros H st HP. destruct r as [e|a]; simpl; auto.
Qed.

(** ** The conversions to text *)

Lemma String_of_eq v st :
  String_of v st =
  if printable v then (Ok (to_string v), st)
  else (Throw conversion_error, st).
Proof. unfold String_of. now destruct (printable v). Qed.

Lemma cleaned_eq x st :
  cleaned x st =
  if can_clean x then (Ok (clean x), st) else (Throw conversion_error, st).
Proof.
  unfold cleaned, can_clean, clean, bind. rewrite String_of_eq.
  now destruct (printable (or_else x (VStr ""))).
Qed.

Lemma cleaned_all_eq rs st :
  cleaned_all rs st =
  if forallb can_clean rs then (Ok (map clean rs), st)
  else (Throw conversion_error, st).
Proof.
  induction rs as [|r rest IH]; simpl; [reflexivity|].
  unfold bind at 1. rewrite cleaned_eq.
  destruct (can_clean r); simpl; [|reflexivity].
  unfold bind at 1. rewrite IH.
  now destruct (forallb can_clean rest).
Qed.

Lemma triple_String_of P E v :
  (forall e st, P st -> E e st) ->
  triple P (String_of v)
    (fun text st => P st /\ text = to_string v /\ printable v = true) E.
Proof.
  intros H st HP. rewrite String_of_eq.
  destruct (printable v); simpl; auto.
Qed.

Lemma triple_cleaned P E x :
  (forall e st, P st -> E e st) ->
  triple P (cleaned x)
    (fun text st => P st /\ text = clean x /\ can_clean x = true) E.
Proof.
  intros H st HP. rewrite cleaned_eq.
  destruct (can_clean x); simpl; auto.
Qed.

Lemma triple_cleaned_all P E rs :
  (forall e st, P st -> E e st) ->
  triple P (cleaned_all rs)
    (fun texts st =>
       P st /\ texts = map clean rs /\ forallb can_clean rs = true) E.
Proof.
  intros H st HP. rewrite cleaned_all_eq.
  destruct (forallb can_clean rs); simpl; auto.
Qed.

(** ** [addPR], step by step *)

Lemma addPR_eq W owner repo number st :
  addPR W owner repo number st =
  match pulls_get W owner repo number with
  | inr data => (Ok tt, stored W owner repo number data st)
  | inl e =>
      if is_404 e then (Ok tt, with_call (CallGet owner repo number) st)
      else (Throw e, with_call (CallGet owner repo number) st)
  end.
Proof.
  unfold addPR, try_catch, bind, remote, await, daysOpen, date_now, bind.
  simpl. destruct (pulls_get W owner repo number) as [e|data]; simpl.
  - destruct (is_404 e); reflexivity.
  - reflexivity.
Qed.

(** ** Invariants of the loops *)

Section LoopInvariant.
Variable W : world.
Variable org : value.
Variables MAX_TOTAL_PRS MAX_SEARCH_RESULTS_PER_USER : Z.
Variable P : state -> Prop.
Variable E : exn -> state -> Prop.

Hypothesis P_list :
  forall owner repo i st, P st -> P (with_call (CallList owner repo i) st).
Hypothesis P_search :
  forall q st, P st -> P (with_call (CallSearch q) st).
Hypothesis P_err : forall e st, P st -> E e st.

Section Listing.
(** In the listing path a record is fetched below the cap only. *)
Hypothesis P_add_below :
  forall owner repo number,
    triple (fun st => P st /\ map_size (prMap st) < MAX_TOTAL_PRS)
      (addPR W owner repo number) (fun _ => P) E.

Lemma prs_loop_inv owner repo prs :
  triple P (prs_loop W MAX_TOTAL_PRS owner repo prs) (fun _ => P) E.
Proof.
  induction prs as [|pr rest IH]; simpl.
  - now apply triple_ret.
  - eapply triple_bind; [apply triple_size|].
    intros n. simpl.
    destruct (MAX_TOTAL_PRS <=? n) eqn:Hcap.
    + apply triple_ret. tauto.
    + apply Z.leb_gt in Hcap.
      destruct pr as [|[number|]];
        try (eapply triple_weaken; [exact IH| tauto | auto | auto]).
      destruct (number =? 0);
        [eapply triple_weaken; [exact IH| tauto | auto | auto]|].
      eapply triple_bind; [|intros ?; exact IH].
      eapply triple_weaken; [apply P_add_below | | auto | auto].
      simpl. intros st [HP Hn]. split; [assumption | lia].
Qed.

Lemma pages_loop_inv owner repo pages i :
  triple P (pages_loop W MAX_TOTAL_PRS owner repo i pages) (fun _ => P) E.
Proof.
  revert i. induction pages as [|p rest IH]; intros i; simpl.
  - now apply triple_ret.
  - eapply triple_bind with (Q := fun _ => P).
    { intros st HP. simpl. now apply P_list. }
    intros ?. eapply triple_bind.
    { apply triple_await. intros e st _. apply P_err. }
    intros page. simpl. eapply triple_bind with (Q := fun _ => P).
    { eapply triple_weaken; [apply prs_loop_inv | tauto | auto | auto]. }
    intros ?. apply IH.
Qed.

Lemma repos_loop_inv rs :
  triple P (repos_loop W MAX_TOTAL_PRS rs) (fun _ => P) E.
Proof.
  induction rs as [|repoFull rest IH]; simpl.
  - now apply triple_ret.
  - eapply triple_bind; [apply triple_size|].
    intros n. simpl.
    destruct (MAX_TOTAL_PRS <=? n); [apply triple_ret; tauto|].
    eapply triple_bind with (Q := fun _ => P).
    { eapply triple_weaken;
        [apply (triple_cleaned P E), P_err | tauto | | auto].
      simpl. tauto. }
    intros text. simpl.
    assert (Hskip : triple P
                      (repos_loop W MAX_TOTAL_PRS rest) (fun _ => P) E)
      by exact IH.
    destruct (split "/" text) as [|owner [|repo parts]];
      simpl; try exact Hskip.
    destruct ((owner =? "")%string || (repo =? "")%string);
      [exact Hskip|].
    eapply triple_bind with (Q := fun _ => P); [|intros ?; exact IH].
    apply pages_loop_inv.
Qed.
End Listing.

Section Searching.
(** In the search path a record is fetched whatever the size is. *)
Hypothesis P_add :
  forall owner repo number,
    triple P (addPR W owner repo number) (fun _ => P) E.

Lemma items_loop_inv items :
  triple P (items_loop W items) (fun _ => P) E.
Proof.
  induction items as [|it rest IH]; simpl.
  - now apply triple_ret.
  - destruct it as [|[url|]]; try exact IH.
    destruct (url =? "")%string; [exact IH|].
    destruct (url_match url) as [[[owner repo] digits]|]; [|exact IH].
    destruct (Number_of digits) as [number|]; [|exact IH].
    eapply triple_bind; [apply P_add | intros ?; exact IH].
Qed.

Lemma paginate_search_inv q :
  triple P (paginate_search W q) (fun _ => P) E.
Proof.
  unfold paginate_search.
  eapply triple_bind with (Q := fun _ => P).
  { intros st HP. simpl. now apply P_search. }
  intros ?. eapply triple_bind.
  { apply triple_await. intros e st _. apply P_err. }
  intros pages. apply triple_ret. tauto.
Qed.

Lemma users_loop_inv us :
  triple P
    (users_loop W org MAX_TOTAL_PRS MAX_SEARCH_RESULTS_PER_USER us)
    (fun _ => P) E.
Proof.
  induction us as [|userRaw rest IH]; simpl.
  - now apply triple_ret.
  - eapply triple_bind; [apply triple_size|].
    intros n. simpl.
    destruct (MAX_TOTAL_PRS <=? n); [apply triple_ret; tauto|].
    eapply triple_bind with (Q := fun _ => P).
    { eapply triple_weaken;
        [apply (triple_cleaned P E), P_err | tauto | | auto].
      simpl. tauto. }
    intros text. simpl.
    destruct (strip_at text =? "")%string; [exact IH|].
    eapply triple_bind with (Q := fun _ => P).
    { eapply triple_weaken;
        [apply (triple_String_of P E), P_err | tauto | | auto].
      simpl. tauto. }
    intros org_text. simpl.
    eapply triple_bind with (Q := fun _ => P);
      [apply paginate_search_inv|].
    intros results.
    eapply triple_bind with (Q := fun _ => P); [|intros ?; exact IH].
    apply items_loop_inv.
Qed.

Lemma collect_inv repos users :
  triple P
    (collect W org repos users MAX_TOTAL_PRS MAX_SEARCH_RESULTS_PER_USER)
    (fun _ => P) E.
Proof.
  unfold collect.
  eapply triple_bind with (Q := fun _ => P);
    [|intros ?; apply users_loop_inv].
  apply repos_loop_inv. intros owner repo number.
  eapply triple_weaken; [apply P_add | tauto | auto | auto].
Qed.
End Searching.
End LoopInvariant.

(** ** The run reports no failure once the configuration is accepted *)

Lemma addPR_keeps (R : state -> Prop) W owner repo number :
  (forall st data,
      pulls_get W owner repo number = inr data ->
      R st -> R (stored W owner repo number data st)) ->
  (forall st e,
      pulls_get W owner repo number = inl e ->
      R st -> R (with_call (CallGet owner repo number) st)) ->
  triple R (addPR W owner repo number) (fun _ => R) (fun _ => R).
Proof.
  intros Hs Hc st HR. rewrite addPR_eq.
  destruct (pulls_get W owner repo number) as [e|data] eqn:Hget; eauto.
  destruct (is_404 e); eauto.
Qed.

Lemma collect_quiet W org repos users cap cap' :
  triple (fun st => failed st = [] /\ output st = None)
    (collect W org repos users cap cap')
    (fun _ st => failed st = [] /\ output st = None)
    (fun _ st => failed st = [] /\ output st = None).
Proof.
  apply collect_inv; auto.
  intros owner repo number. apply addPR_keeps; auto.
Qed.

Lemma digest_quiet W org repos users cap0 cap cap' :
  triple (fun st => failed st = [] /\ output st = None)
    (digest W org repos users cap0 cap cap')
    (fun _ st => failed st = [])
    (fun _ st => failed st = [] /\ output st = None).
Proof.
  unfold digest. eapply triple_bind; [apply collect_quiet|].
  intros ?. eapply triple_bind; [apply triple_cleaned_all; auto|].
  intros ? st [[Hf Ho] _]. simpl.
  destruct (classify repos (prMap st)) as [teamOwned teamNonOwned].
  exact Hf.
Qed.

(** ** The guards on the configuration (lines 4 to 40) *)

Section Guards.
Variable W : world.

Lemma existsSync_read p :
  existsSync W p = false -> file_at W p = Missing.
Proof. unfold existsSync. destruct (file_at W p); congruence. Qed.

Lemma main_no_source :
  source_unspecified W ->
  main W initial =
  (Ok tt, failed_with "Missing PR_DIGEST_CONFIG environment variable.").
Proof.
  unfold main. intros [H|H]; rewrite H; reflexivity.
Qed.

Lemma main_not_found p :
  env_PR_DIGEST_CONFIG W = Some p -> p <> "" ->
  file_at W p = Missing ->
  main W initial =
  (Ok tt, failed_with ("PR digest config file not found: " ++ p)).
Proof.
  intros Hp Hne Hf. unfold main. rewrite Hp.
  apply String.eqb_neq in Hne. rewrite Hne.
  unfold existsSync. rewrite Hf. reflexivity.
Qed.

Lemma main_invalid p message :
  env_PR_DIGEST_CONFIG W = Some p -> p <> "" ->
  existsSync W p = true ->
  read_config W p = inl message ->
  main W initial =
  (Ok tt, failed_with ("Invalid JSON in " ++ p ++ ": " ++ message)).
Proof.
  intros Hp Hne Hex Hr. unfold main. rewrite Hp.
  apply String.eqb_neq in Hne. rewrite Hne, Hex, Hr. reflexivity.
Qed.

Lemma main_null p :
  env_PR_DIGEST_CONFIG W = Some p -> p <> "" ->
  existsSync W p = true ->
  read_config W p = inr PNull ->
  main W initial =
  (Throw (TypeError "Cannot read properties of null (reading 'org')"),
   initial).
Proof.
  intros Hp Hne Hex Hr. unfold main. rewrite Hp.
  apply String.eqb_neq in Hne. rewrite Hne, Hex, Hr. reflexivity.
Qed.

Lemma main_no_org p cfg :
  env_PR_DIGEST_CONFIG W = Some p -> p <> "" ->
  existsSync W p = true ->
  read_config W p = inr (PDoc cfg) ->
  truthy (cfg_org cfg) = false ->
  main W initial =
  (Ok tt, failed_with (p ++ " must include " ++ dquote ++ "org" ++ dquote)).
Proof.
  intros Hp Hne Hex Hr Horg. unfold main. rewrite Hp.
  apply String.eqb_neq in Hne. rewrite Hne, Hex, Hr. simpl.
  rewrite Horg. reflexivity.
Qed.

Lemma main_no_list p cfg :
  env_PR_DIGEST_CONFIG W = Some p -> p <> "" ->
  existsSync W p = true ->
  read_config W p = inr (PDoc cfg) ->
  truthy (cfg_org cfg) = true ->
  array_or_empty (cfg_repos cfg) = [] ->
  array_or_empty (cfg_users cfg) = [] ->
  main W initial =
  (Ok tt, failed_with (p ++ " must include at least one repo or one user")).
Proof.
  intros Hp Hne Hex Hr Horg Hrepos Husers. unfold main. rewrite Hp.
  apply String.eqb_neq in Hne. rewrite Hne, Hex, Hr. simpl.
  rewrite Horg, Hrepos, Husers. reflexivity.
Qed.

(** The configuration is accepted: the rest of the script runs. *)
Lemma main_accepted p cfg :
  env_PR_DIGEST_CONFIG W = Some p -> p <> "" ->
  existsSync W p = true ->
  read_config W p = inr (PDoc cfg) ->
  truthy (cfg_org cfg) = true ->
  array_or_empty (cfg_repos cfg) <> []
  \/ array_or_empty (cfg_users cfg) <> [] ->
  main W =
  digest W (cfg_org cfg)
    (array_or_empty (cfg_repos cfg)) (array_or_empty (cfg_users cfg))
    (cap_or (cfg_max_prs_per_repo cfg) 25)
    (cap_or (cfg_max_total_prs cfg) 200)
    (cap_or (cfg_max_search_results_per_user cfg) 500).
Proof.
  intros Hp Hne Hex Hr Horg Hlist. unfold main. rewrite Hp.
  apply String.eqb_neq in Hne. rewrite Hne, Hex, Hr. simpl.
  rewrite Horg. simpl.
  destruct (array_or_empty (cfg_repos cfg)) as [|r rs];
    destruct (array_or_empty (cfg_users cfg)) as [|u us];
    simpl; try reflexivity.
  destruct Hlist; congruence.
Qed.

Ltac same_document :=
  repeat match goal with
  | H : holds_document _ _ |- _ => destruct H as [? [? ?]]
  | H : exists _, _ |- _ => destruct H
  | H : _ /\ _ |- _ => destruct H
  | H1 : env_PR_DIGEST_CONFIG W = Some ?p,
    H2 : env_PR_DIGEST_CONFIG W = Some ?q |- _ =>
      rewrite H1 in H2; injection H2 as <-
  | H1 : read_config W ?p = _, H2 : read_config W ?p = _ |- _ =>
      rewrite H1 in H2; (discriminate H2 || injection H2 as <-)
  end.

Lemma start_cases : start W.
Proof.
  destruct (env_PR_DIGEST_CONFIG W) as [p|] eqn:Hp.
  2:{ eapply StartFails; [left; now left | apply main_no_source; now left]. }
  destruct (string_dec p "") as [->|Hne].
  { eapply StartFails; [left; now right | apply main_no_source; now right]. }
  destruct (existsSync W p) eqn:Hex.
  2:{ apply existsSync_read in Hex.
      eapply StartFails;
        [right; left; now exists p | now apply (main_not_found p)]. }
  destruct (read_config W p) as [message|[|cfg]] eqn:Hr.
  - eapply StartFails;
      [right; right; left; now exists p, message
      | now apply (main_invalid p message)].
  - apply StartNull;
      [now exists p | eexists; now apply (main_null p) |].
    unfold guarded_failure, source_unspecified, file_not_found,
      content_invalid, org_falsy, no_repo_no_user.
    intros [[H|H]|[H|[H|[H|H]]]]; try congruence; same_document.
    unfold existsSync in Hex. rewrite H0 in Hex. discriminate.
  - destruct (truthy (cfg_org cfg)) eqn:Horg.
    2:{ eapply StartFails;
          [right; right; right; left; exists cfg; split;
             [now exists p | assumption]
          | now apply (main_no_org p cfg)]. }
    destruct (array_or_empty (cfg_repos cfg)) as [|r rs] eqn:Hrepos.
    + destruct (array_or_empty (cfg_users cfg)) as [|u us] eqn:Husers.
      * eapply StartFails;
          [right; right; right; right; exists cfg; split;
             [now exists p | now split]
          | now apply (main_no_list p cfg)].
      * apply (StartAccepted W p cfg); auto.
        { right. rewrite Husers. discriminate. }
        unfold guarded_failure, source_unspecified, file_not_found,
          content_invalid, org_falsy, no_repo_no_user.
        intros [[H|H]|[H|[H|[H|H]]]]; try congruence; same_document;
          try congruence.
        unfold existsSync in Hex. rewrite H0 in Hex. discriminate.
    + apply (StartAccepted W p cfg); auto.
      { left. rewrite Hrepos. discriminate. }
      unfold guarded_failure, source_unspecified, file_not_found,
        content_invalid, org_falsy, no_repo_no_user.
      intros [[H|H]|[H|[H|[H|H]]]]; try congruence; same_document;
        try congruence.
      unfold existsSync in Hex. rewrite H0 in Hex. discriminate.
Qed.
End Guards.

(** ** A detail fetch that fails aborts the run *)

Section Abort.
Variable W : world.

Lemma no_fatal_call_other c st :
  fatal W c = None -> no_fatal_call W st -> no_fatal_call W (with_call c st).
Proof.
  intros Hc [Hcalls Hout]. split; [|exact Hout].
  simpl. intros c' Hin. apply in_app_iff in Hin.
  destruct Hin as [Hin|[<-|[]]]; auto.
Qed.

Lemma addPR_abort owner repo number :
  triple (no_fatal_call W) (addPR W owner repo number)
    (fun _ => no_fatal_call W) (aborted_by W).
Proof.
  intros st [Hcalls Hout]. rewrite addPR_eq.
  destruct (pulls_get W owner repo number) as [e|data] eqn:Hget.
  - destruct (is_404 e) eqn:H404.
    + apply no_fatal_call_other; [|now split].
      simpl. now rewrite Hget, H404.
    + split; [|exact Hout]. simpl. intros c e' Hin Hfatal.
      apply in_app_iff in Hin. destruct Hin as [Hin|[<-|[]]].
      * rewrite (Hcalls c Hin) in Hfatal. discriminate.
      * simpl in Hfatal. rewrite Hget, H404 in Hfatal. congruence.
  - split; [|exact Hout]. simpl. intros c Hin.
    apply in_app_iff in Hin. destruct Hin as [Hin|[<-|[]]]; auto.
    simpl. now rewrite Hget.
Qed.

Lemma collect_abort org repos users cap cap' :
  triple (no_fatal_call W) (collect W org repos users cap cap')
    (fun _ => no_fatal_call W) (aborted_by W).
Proof.
  apply collect_inv.
  - intros. now apply no_fatal_call_other.
  - intros. now apply no_fatal_call_other.
  - intros e st [Hcalls Hout]. split; [|exact Hout].
    intros c e' Hin Hfatal. rewrite (Hcalls c Hin) in Hfatal. discriminate.
  - apply addPR_abort.
Qed.

Lemma digest_abort org repos users cap0 cap cap' :
  triple (no_fatal_call W) (digest W org repos users cap0 cap cap')
    (fun _ st => forall c, In c (calls st) -> fatal W c = None)
    (aborted_by W).
Proof.
  unfold digest. eapply triple_bind; [apply collect_abort|].
  intros ?. eapply triple_bind.
  { apply triple_cleaned_all. intros e st [Hcalls Hout].
    split; [|exact Hout].
    intros c e' Hin Hfatal. rewrite (Hcalls c Hin) in Hfatal. discriminate. }
  intros ? st [[Hcalls Hout] _]. simpl.
  destruct (classify repos (prMap st)) as [teamOwned teamNonOwned].
  exact Hcalls.
Qed.
End Abort.

Lemma main_abort W c e :
  In c (calls (final (main W) initial)) -> fatal W c = Some e ->
  outcome (main W) initial = Throw e
  /\ output (final (main W) initial) = None.
Proof.
  unfold final, outcome.
  destruct (start_cases W)
    as [msg _ Hrun | _ [e0 Hrun] _ | p cfg Hp Hne Hex Hr Horg Hlist _];
    try (rewrite Hrun; simpl; intros; contradiction).
  rewrite (main_accepted W p cfg) by assumption.
  assert (Hinit : no_fatal_call W initial)
    by (split; [intros c' [] | reflexivity]).
  pose proof (digest_abort W (cfg_org cfg)
                (array_or_empty (cfg_repos cfg))
                (array_or_empty (cfg_users cfg))
                (cap_or (cfg_max_prs_per_repo cfg) 25)
                (cap_or (cfg_max_total_prs cfg) 200)
                (cap_or (cfg_max_search_results_per_user cfg) 500)
                initial Hinit) as Hq.
  destruct (digest _ _ _ _ _ _ _ initial) as [[[]|e0] st]; simpl;
    intros Hin Hfatal.
  - rewrite (Hq c Hin) in Hfatal. discriminate.
  - destruct Hq as [Hcalls Hout].
    now rewrite (Hcalls c e Hin Hfatal).
Qed.

(** ** Classification *)

Section Classify.
Variable repos : list value.

Lemma has_In set x : has set x = true <-> In x set.
Proof.
  unfold has. rewrite existsb_exists. split.
  - intros [y [Hy E]]. apply String.eqb_eq in E. now subst.
  - intros H. exists x. split; [assumption | apply String.eqb_refl].
Qed.

Lemma classify_fold prs acc :
  fold_left (classify_step repos) prs acc =
  ((fst acc ++ filter (owned repos) prs)%list,
   (snd acc ++ filter (fun pr => negb (owned repos pr)) prs)%list).
Proof.
  revert acc. induction prs as [|pr prs IH]; intros [a b]; simpl.
  - now rewrite !app_nil_r.
  - rewrite IH. unfold classify_step, owned. simpl.
    destruct (has (teamRepoSet repos) (pr_repo pr)); simpl;
      now rewrite <- ?app_assoc.
Qed.

Lemma classify_eq m :
  classify repos m =
  (filter (owned repos) (map_values m),
   filter (fun pr => negb (owned repos pr)) (map_values m)).
Proof. unfold classify. now rewrite classify_fold. Qed.

Lemma filter_split {A} (p : A -> bool) xs :
  Permutation (filter p xs ++ filter (fun x => negb (p x)) xs)%list xs.
Proof.
  induction xs as [|x xs IH]; simpl; [constructor|].
  destruct (p x); simpl.
  - now constructor.
  - rewrite <- Permutation_middle. now constructor.
Qed.
End Classify.

(** ** One entry for each URL *)

Section Merge.
Variable W : world.

Lemma merged_once_other c st :
  (forall owner repo number, c <> CallGet owner repo number) ->
  merged_once W st -> merged_once W (with_call c st).
Proof.
  intros Hc [Hnd Hin]. split; [exact Hnd|].
  simpl. intros owner repo number data Hcall Hget.
  apply in_app_iff in Hcall. destruct Hcall as [Hcall|[Heq|[]]].
  - eapply Hin; eassumption.
  - now apply Hc in Heq.
Qed.

Lemma addPR_merged_once owner repo number :
  triple (merged_once W) (addPR W owner repo number)
    (fun _ => merged_once W) (fun _ => merged_once W).
Proof.
  apply addPR_keeps.
  - intros st data Hget [Hnd Hin]. split; simpl.
    + now apply map_set_NoDup.
    + intros owner' repo' number' data' Hcall Hget'.
      apply map_keys_set_In. apply in_app_iff in Hcall.
      destruct Hcall as [Hcall|[Heq|[]]].
      * right. eapply Hin; eassumption.
      * injection Heq as <- <- <-. left. congruence.
  - intros st e Hget [Hnd Hin]. split; [exact Hnd|].
    simpl. intros owner' repo' number' data' Hcall Hget'.
    apply in_app_iff in Hcall. destruct Hcall as [Hcall|[Heq|[]]].
    + eapply Hin; eassumption.
    + injection Heq as <- <- <-. congruence.
Qed.

Lemma collect_merged_once org repos users cap cap' :
  triple (merged_once W) (collect W org repos users cap cap')
    (fun _ => merged_once W) (fun _ => merged_once W).
Proof.
  apply collect_inv; auto.
  - intros. apply merged_once_other; [discriminate | assumption].
  - intros. apply merged_once_other; [discriminate | assumption].
  - apply addPR_merged_once.
Qed.

Lemma digest_merged_once org repos users cap0 cap cap' :
  triple (merged_once W) (digest W org repos users cap0 cap cap')
    (fun _ => merged_once W) (fun _ => merged_once W).
Proof.
  unfold digest. eapply triple_bind; [apply collect_merged_once|].
  intros ?. eapply triple_bind; [apply triple_cleaned_all; auto|].
  intros ? st [H _]. simpl.
  destruct (classify repos (prMap st)) as [teamOwned teamNonOwned].
  exact H.
Qed.

Lemma main_merged_once : merged_once W (final (main W) initial).
Proof.
  assert (Hinit : merged_once W initial)
    by (split; [constructor | intros ? ? ? ? []]).
  unfold final.
  destruct (start_cases W)
    as [msg _ Hrun | _ [e0 Hrun] _ | p cfg Hp Hne Hex Hr Horg Hlist _].
  - rewrite Hrun. split; [constructor | intros ? ? ? ? []].
  - now rewrite Hrun.
  - rewrite (main_accepted W p cfg) by assumption.
    pose proof (digest_merged_once (cfg_org cfg)
                  (array_or_empty (cfg_repos cfg))
                  (array_or_empty (cfg_users cfg))
                  (cap_or (cfg_max_prs_per_repo cfg) 25)
                  (cap_or (cfg_max_total_prs cfg) 200)
                  (cap_or (cfg_max_search_results_per_user cfg) 500)
                  initial Hinit) as Hq.
    now destruct (digest _ _ _ _ _ _ _ initial) as [[[]|e0] st].
Qed.
End Merge.

(** ** The cap on the collection *)

Section Cap.
Variable W : world.
Variable cap : Z.

(** Below the cap, a detail fetch cannot pass it. *)
Lemma addPR_within_cap owner repo number :
  triple (fun st => within_cap cap st /\ map_size (prMap st) < cap)
    (addPR W owner repo number)
    (fun _ => within_cap cap) (fun _ => within_cap cap).
Proof.
  unfold within_cap. intros st [Hle Hlt]. rewrite addPR_eq.
  destruct (pulls_get W owner repo number) as [e|data]; simpl.
  - destruct (is_404 e); simpl; lia.
  - pose proof (map_size_set_le (html_url data)
                  (record_of owner repo data (days_at W st data)) (prMap st)).
    lia.
Qed.

(** The listing path keeps the collection within the cap. *)
Lemma repos_loop_within_cap rs :
  triple (within_cap cap) (repos_loop W cap rs)
    (fun _ => within_cap cap) (fun _ => within_cap cap).
Proof.
  apply repos_loop_inv; auto.
  apply addPR_within_cap.
Qed.

(** At the cap, the loops over the records of a page, over the
    repositories and over the authors stop at once. *)
Lemma prs_loop_at_cap owner repo prs st :
  cap <= map_size (prMap st) ->
  prs_loop W cap owner repo prs st = (Ok tt, st).
Proof.
  intros H. apply Z.leb_le in H.
  destruct prs; simpl; [reflexivity|].
  unfold bind, size. now rewrite H.
Qed.

Lemma repos_loop_at_cap rs st :
  cap <= map_size (prMap st) -> repos_loop W cap rs st = (Ok tt, st).
Proof.
  intros H. apply Z.leb_le in H.
  destruct rs; simpl; [reflexivity|].
  unfold bind, size. now rewrite H.
Qed.

Lemma users_loop_at_cap org cap' us st :
  cap <= map_size (prMap st) ->
  users_loop W org cap cap' us st = (Ok tt, st).
Proof.
  intros H. apply Z.leb_le in H.
  destruct us; simpl; [reflexivity|].
  unfold bind, size. now rewrite H.
Qed.

Lemma with_calls_nil st : with_calls [] st = st.
Proof. destruct st. unfold with_calls. simpl. now rewrite app_nil_r. Qed.

Lemma with_calls_cons c cs st :
  with_calls cs (with_call c st) = with_calls (c :: cs) st.
Proof. unfold with_calls, with_call. simpl. now rewrite <- app_assoc. Qed.

(** At the cap, the loop over the pages of a listing still requests every
    page that is left. *)
Lemma pages_loop_at_cap owner repo pages i st :
  cap <= map_size (prMap st) ->
  all_pages_load pages ->
  pages_loop W cap owner repo i pages st
  = (Ok tt, with_calls (page_calls owner repo i pages) st).
Proof.
  revert i st. induction pages as [|p pages IH]; intros i st Hcap Hload.
  - simpl. now rewrite with_calls_nil.
  - destruct (Hload p (or_introl eq_refl)) as [page ->].
    cbn [pages_loop page_calls]. unfold bind at 1. simpl.
    unfold bind at 1. simpl. unfold bind at 1.
    fold (with_call (CallList owner repo i) st).
    rewrite prs_loop_at_cap by exact Hcap.
    rewrite IH; [apply f_equal, with_calls_cons | exact Hcap |].
    intros p' Hin. apply Hload. now right.
Qed.
End Cap.

End DigestFacts.

(* ================================================================== *)
(** * Facts on the rendering *)
(* ================================================================== *)

Module RenderFacts.
Import Js Platform Digest Spec JsFacts.

(** ** The order of the records *)





(** ** The order of the repositories *)



(** ** Grouping *)









End RenderFacts.

(* ================================================================== *)
(** * The properties of the specification *)
(* ================================================================== *)

Module Properties.
Import Js Platform Digest Spec JsFacts UrlFacts DigestFacts RenderFacts.
Local Open Scope script_scope.

(** ** Configuration *)

(** C7, as the specification states it, fails: a configuration file whose
    [org] is the empty text has an organization field, a repository and is
    valid JSON, and yet the run reports a failure. *)
Lemma empty_org_is_rejected :
  ~ (reports_failure (world_of doc_empty_org)
     <-> listed_failure (world_of doc_empty_org)).
Proof.
  intros [Hfail _].
  assert (Hrun : reports_failure (world_of doc_empty_org))
    by (unfold reports_failure; vm_compute; discriminate).
  specialize (Hfail Hrun).
  unfold listed_failure, source_unspecified, file_not_found, content_invalid,
    org_absent, no_repo_no_user, holds_document in Hfail.
  simpl in Hfail.
  destruct Hfail as [[H|H]|[H|[H|[H|H]]]]; try discriminate.
  - destruct H as [p [[= <-] H]]. discriminate H.
  - destruct H as [p [message [[= <-] H]]]. discriminate H.
  - destruct H as [cfg [[p [[= <-] H]] Horg]].
    injection H as <-. discriminate Horg.
  - destruct H as [cfg [[p [[= <-] H]] [Hrepos _]]].
    injection H as <-. discriminate Hrepos.
Qed.

(** C7, amended.  When the configuration file does not hold the document
    [null], the run reports a failure with [core.setFailed] exactly when
    [PR_DIGEST_CONFIG] is unset or empty, the file does not exist, the file
    cannot be read or is not valid JSON, [org] is absent or falsy, or both
    [repos] and [users] are empty; and then it returns at once: one
    message, no remote call, nothing merged, no output. *)
Theorem config_failure_exactly (W : world) (Hdoc : ~ holds_null W) :
  (reports_failure W <-> guarded_failure W)
  /\ (guarded_failure W ->
      exists msg, main W initial = (Ok tt, failed_with msg)).
Proof.
  destruct (start_cases W)
    as [msg Hguard Hrun | Hnull _ _ | p cfg Hp Hne Hex Hr Horg Hlist Hclear].
  - split; [|intros _; now exists msg].
    split; [intros _; exact Hguard|].
    intros _. unfold reports_failure, final. rewrite Hrun. discriminate.
  - contradiction.
  - split; [|intros H; contradiction].
    split; [|intros H; contradiction].
    intros Hfail. exfalso. apply Hfail. unfold reports_failure, final.
    rewrite (main_accepted W p cfg) by assumption.
    pose proof (digest_quiet W (cfg_org cfg)
                  (array_or_empty (cfg_repos cfg))
                  (array_or_empty (cfg_users cfg))
                  (cap_or (cfg_max_prs_per_repo cfg) 25)
                  (cap_or (cfg_max_total_prs cfg) 200)
                  (cap_or (cfg_max_search_results_per_user cfg) 500)
                  initial (conj eq_refl eq_refl)) as Hq.
    destruct (digest _ _ _ _ _ _ _ initial) as [[[]|e] st]; simpl; tauto.
Qed.

Lemma config_failure_exactly_witness :
  (reports_failure (world_of doc_empty_org)
   <-> guarded_failure (world_of doc_empty_org))
  /\ (guarded_failure (world_of doc_empty_org) ->
      exists msg, main (world_of doc_empty_org) initial
                  = (Ok tt, failed_with msg)).
Proof.
  apply (config_failure_exactly (world_of doc_empty_org)).
  intros [p [Hp Hr]]. simpl in Hp. injection Hp as <-.
  vm_compute in Hr. discriminate Hr.
Defined.

(** C10.  A [repos] or [users] that is not an array is read as the empty
    list: with both of them so, the run fails with the message on the
    missing repository or user; with one of them so, the run goes on with
    the other list alone. *)
Theorem non_array_list_is_empty (W : world) (p : string) (cfg : config_doc)
  (Hp : env_PR_DIGEST_CONFIG W = Some p) (Hne : p <> "")
  (Hex : existsSync W p = true)
  (Hr : read_config W p = inr (PDoc cfg))
  (Horg : truthy (cfg_org cfg) = true) :
  (forall v, isArray v = false -> array_or_empty v = [])
  /\ (isArray (cfg_repos cfg) = false ->
      isArray (cfg_users cfg) = false ->
      main W initial =
      (Ok tt,
       failed_with (p ++ " must include at least one repo or one user")))
  /\ (isArray (cfg_repos cfg) = false ->
      array_or_empty (cfg_users cfg) <> [] ->
      main W =
      digest W (cfg_org cfg) [] (array_or_empty (cfg_users cfg))
        (cap_or (cfg_max_prs_per_repo cfg) 25)
        (cap_or (cfg_max_total_prs cfg) 200)
        (cap_or (cfg_max_search_results_per_user cfg) 500))
  /\ (isArray (cfg_users cfg) = false ->
      array_or_empty (cfg_repos cfg) <> [] ->
      main W =
      digest W (cfg_org cfg) (array_or_empty (cfg_repos cfg)) []
        (cap_or (cfg_max_prs_per_repo cfg) 25)
        (cap_or (cfg_max_total_prs cfg) 200)
        (cap_or (cfg_max_search_results_per_user cfg) 500)).
Proof.
  assert (Hempty : forall v, isArray v = false -> array_or_empty v = [])
    by (intros []; simpl; congruence).
  split; [exact Hempty|]. repeat split.
  - intros Hrepos Husers. apply (main_no_list W p cfg); auto.
  - intros Hrepos Husers.
    rewrite (main_accepted W p cfg) by auto.
    now rewrite (Hempty _ Hrepos).
  - intros Husers Hrepos.
    rewrite (main_accepted W p cfg) by auto.
    now rewrite (Hempty _ Husers).
Qed.

Lemma non_array_list_is_empty_witness :
  main (world_of doc_no_array) initial =
  (Ok tt,
   failed_with ("cfg.json" ++ " must include at least one repo or one user")).
Proof.
  refine (proj1 (proj2
    (non_array_list_is_empty (world_of doc_no_array) "cfg.json" doc_no_array
       eq_refl _ eq_refl eq_refl eq_refl)) eq_refl eq_refl).
  discriminate.
Defined.

(** ** Failures of the detail fetch *)

(** C8.  A detail fetch that answers 404 adds no entry and returns, so
    that the loop goes on with the next record; any other failure of a
    detail fetch is thrown again by [addPR], and a run in which it occurs
    ends with that error and without output. *)
Theorem detail_fetch_failure (W : world) :
  (forall owner repo number e st,
      pulls_get W owner repo number = inl e -> is_404 e = true ->
      addPR W owner repo number st
      = (Ok tt, with_call (CallGet owner repo number) st)
      /\ prMap (final (addPR W owner repo number) st) = prMap st)
  /\ (forall cap owner repo number e rest st,
      pulls_get W owner repo number = inl e -> is_404 e = true ->
      number <> 0 -> map_size (prMap st) < cap ->
      prs_loop W cap owner repo (Item (Some number) :: rest) st
      = prs_loop W cap owner repo rest
          (with_call (CallGet owner repo number) st))
  /\ (forall owner repo number e st,
      pulls_get W owner repo number = inl e -> is_404 e = false ->
      addPR W owner repo number st
      = (Throw e, with_call (CallGet owner repo number) st))
  /\ (forall owner repo number e,
      In (CallGet owner repo number) (calls (final (main W) initial)) ->
      pulls_get W owner repo number = inl e -> is_404 e = false ->
      outcome (main W) initial = Throw e
      /\ output (final (main W) initial) = None).
Proof.
  split; [|split; [|split]].
  - intros owner repo number e st Hget H404. unfold final.
    rewrite addPR_eq, Hget, H404. now split.
  - intros cap owner repo number e rest st Hget H404 Hnum Hsize.
    simpl. unfold bind at 1. simpl.
    apply Z.leb_gt in Hsize. rewrite Hsize.
    apply Z.eqb_neq in Hnum. rewrite Hnum.
    unfold bind. now rewrite addPR_eq, Hget, H404.
  - intros owner repo number e st Hget H404.
    now rewrite addPR_eq, Hget, H404.
  - intros owner repo number e Hin Hget H404.
    apply (main_abort W (CallGet owner repo number) e Hin).
    simpl. now rewrite Hget, H404.
Qed.

Lemma detail_fetch_failure_witness :
  addPR world_gone "acme" "core" 1 initial
  = (Ok tt, with_call (CallGet "acme" "core" 1) initial)
  /\ calls (final (main world_gone) initial)
     = [CallList "acme" "core" 0; CallGet "acme" "core" 1;
        CallGet "acme" "core" 2]
  /\ outcome (main world_gone) initial = Throw (HttpError (Some 500))
  /\ output (final (main world_gone) initial) = None.
Proof.
  split; [|split; [reflexivity|]].
  - apply (proj1 (detail_fetch_failure world_gone)
             "acme" "core" 1 (HttpError (Some 404)) initial);
      reflexivity.
  - apply (proj2 (proj2 (proj2 (detail_fetch_failure world_gone)))
             "acme" "core" 2 (HttpError (Some 500))).
    + vm_compute. right. right. left. reflexivity.
    + reflexivity.
    + reflexivity.
Defined.

(** ** Search items *)

(** C9, as the specification states it, fails: the locator below ends
    with the pattern and its number reads [2^53 + 1]; [Number] gives the
    nearest double, [2^53], and that is the pull request fetched. *)
Lemma long_number_is_rounded :
  has_locator url_long "foo" "bar" "9007199254740993"
  /\ decimal_value "9007199254740993" = 9007199254740993
  /\ calls (final (items_loop world_both [SearchItem (Some url_long)]) initial)
     = [CallGet "foo" "bar" 9007199254740992]
  /\ ~ (items_loop world_both [SearchItem (Some url_long)] initial
        = (addPR world_both "foo" "bar" (decimal_value "9007199254740993") ;;
           items_loop world_both []) initial).
Proof.
  split; [|split; [reflexivity|split; [reflexivity|]]].
  - exists "https://api.x.test". split; [reflexivity|].
    repeat split; (discriminate || reflexivity).
  - vm_compute. discriminate.
Qed.

(** C9, amended.  The [url] of a search item ends with
    [/repos/{owner}/{repo}/issues/{number}], the owner and the repository
    being non-empty and without "/", the number a non-empty text of digits,
    exactly when the pattern matches with these three groups.  When the
    number reads at most [2^53], [Number] gives the value of its digits
    and the record of that owner, repository and number is fetched; in
    general the number fetched is the double nearest to that value, and an
    item whose number is too long for a finite double is skipped.  An item
    whose [url] does not end so is skipped: the loop goes on from the same
    state, nothing thrown, nothing added. *)
Theorem search_item_parsing (W : world) (url : string)
  (rest : list search_item) (st : state) :
  (forall owner repo number,
      has_locator url owner repo number
      <-> url_match url = Some (owner, repo, number))
  /\ (forall owner repo number,
      has_locator url owner repo number ->
      decimal_value number <= exact_limit ->
      Number_of number = Some (decimal_value number)
      /\ items_loop W (SearchItem (Some url) :: rest) st
         = (addPR W owner repo (decimal_value number) ;; items_loop W rest)
             st)
  /\ (forall owner repo number,
      has_locator url owner repo number ->
      items_loop W (SearchItem (Some url) :: rest) st
      = match nearest_double (decimal_value number) with
        | Some x => (addPR W owner repo x ;; items_loop W rest) st
        | None => items_loop W rest st
        end)
  /\ ((forall owner repo number, ~ has_locator url owner repo number) ->
      items_loop W (SearchItem (Some url) :: rest) st = items_loop W rest st).
Proof.
  assert (Hstep : forall owner repo number,
             has_locator url owner repo number ->
             items_loop W (SearchItem (Some url) :: rest) st
             = match Number_of number with
               | Some x => (addPR W owner repo x ;; items_loop W rest) st
               | None => items_loop W rest st
               end).
  { intros owner repo number H.
    assert (Hm := proj1 (url_match_iff _ _ _ _) H).
    cbn [items_loop]. rewrite Hm.
    destruct (url =? "")%string eqn:E.
    - apply String.eqb_eq in E. subst url. discriminate Hm.
    - now destruct (Number_of number). }
  split; [intros; apply url_match_iff|]. split; [|split].
  - intros owner repo number H Hn.
    assert (Hd : all is_digit number = true)
      by (destruct H as [prefix [_ [_ [_ [_ Hd]]]]]; exact Hd).
    pose proof (Number_of_exact number Hd Hn) as HN.
    split; [exact HN|]. now rewrite (Hstep owner repo number H), HN.
  - intros owner repo number H.
    assert (Hd : all is_digit number = true)
      by (destruct H as [prefix [_ [_ [_ [_ Hd]]]]]; exact Hd).
    rewrite (Hstep owner repo number H). unfold Number_of.
    now rewrite (number_of_digits_decimal number Hd).
  - intros H. cbn [items_loop]. rewrite (url_match_none url H).
    now destruct (url =? "")%string.
Qed.

Lemma search_item_parsing_witness :
  (Number_of "42" = Some (decimal_value "42")
   /\ items_loop world_both
        [SearchItem (Some "https://api.x.test/repos/foo/bar/issues/42")]
        initial
      = (addPR world_both "foo" "bar" (decimal_value "42") ;;
         items_loop world_both []) initial)
  /\ decimal_value "42" = 42
  /\ items_loop world_both
       [SearchItem (Some (locator "https://api.x.test" "foo" "bar" (nines 400)))]
       initial
     = (Ok tt, initial)
  /\ items_loop world_both
       [SearchItem (Some "https://api.x.test/repos/foo/bar/pull/42")] initial
     = (Ok tt, initial).
Proof.
  split; [|split; [reflexivity|split]].
  - apply (proj1 (proj2 (search_item_parsing world_both
                    "https://api.x.test/repos/foo/bar/issues/42" [] initial))).
    + exists "https://api.x.test". split; [reflexivity|].
      repeat split; (discriminate || reflexivity).
    + vm_compute. discriminate.
  - rewrite (proj1 (proj2 (proj2 (search_item_parsing world_both
                    (locator "https://api.x.test" "foo" "bar" (nines 400))
                    [] initial))) "foo" "bar" (nines 400)).
    + vm_compute. reflexivity.
    + exists "https://api.x.test". split; [reflexivity|].
      repeat split; try discriminate; try reflexivity.
  - apply (proj2 (proj2 (proj2 (search_item_parsing world_both
                    "https://api.x.test/repos/foo/bar/pull/42" [] initial)))).
    intros owner repo number H. apply url_match_iff in H.
    vm_compute in H. discriminate H.
Defined.

(** ** Classification *)

(** C3, as the specification states it, fails: the repository of the
    configuration is written [" acme/core"], with a space in front; the
    record fetched from it has the repository [acme/core], which is not an
    entry of the list, and it is classified as owned. *)
Lemma spaced_entry_is_owned :
  let repos := array_or_empty (cfg_repos doc_spaced) in
  let m := prMap (final (main world_spaced) initial) in
  ~ (forall pr,
        In pr (map_values m) ->
        (In pr (fst (classify repos m)) <-> In (VStr (pr_repo pr)) repos)).
Proof.
  intros repos m H.
  specialize (H (record_of "acme" "core" data_5 3)).
  assert (Hin : In (record_of "acme" "core" data_5 3) (map_values m))
    by (vm_compute; left; reflexivity).
  apply H in Hin. destruct Hin as [Hto _].
  assert (Howned : In (record_of "acme" "core" data_5 3)
                     (fst (classify repos m)))
    by (vm_compute; left; reflexivity).
  apply Hto in Howned. destruct Howned as [Heq|[]]. discriminate Heq.
Qed.

(** C3, amended.  The classification is a partition of the merged
    collection: a record is owned exactly when its repository is the
    trimmed text of an entry of [repos], it is among the others exactly when
    it is not, no record is in both arrays, the two arrays together hold the
    records of the collection, and their sizes add up to its size. *)
Theorem classification_partition (repos : list value)
  (m : jsmap pr_record) :
  let teamOwned := fst (classify repos m) in
  let teamNonOwned := snd (classify repos m) in
  (forall pr,
      In pr (map_values m) ->
      (In pr teamOwned <-> In (pr_repo pr) (map clean repos))
      /\ (In pr teamNonOwned <-> ~ In (pr_repo pr) (map clean repos)))
  /\ (forall pr, In pr teamOwned -> In pr teamNonOwned -> False)
  /\ Permutation (teamOwned ++ teamNonOwned)%list (map_values m)
  /\ Z.of_nat (List.length teamOwned) + Z.of_nat (List.length teamNonOwned)
     = map_size m.
Proof.
  intros teamOwned teamNonOwned. subst teamOwned teamNonOwned.
  rewrite classify_eq. simpl.
  assert (Hown : forall pr,
             owned repos pr = true <-> In (pr_repo pr) (map clean repos))
    by (intros pr; apply has_In).
  split; [|split; [|split]].
  - intros pr Hin. rewrite !filter_In, <- Hown. split.
    + tauto.
    + rewrite negb_true_iff, <- not_true_iff_false. tauto.
  - intros pr H1 H2. apply filter_In in H1, H2.
    destruct H1 as [_ H1], H2 as [_ H2]. rewrite H1 in H2. discriminate.
  - apply filter_split.
  - pose proof (Permutation_length (filter_split (owned repos) (map_values m)))
      as Hlen.
    rewrite length_app in Hlen. unfold map_size, map_values in *.
    rewrite length_map in Hlen. lia.
Qed.

Lemma classification_partition_witness :
  let repos := array_or_empty (cfg_repos doc_spaced) in
  let m := prMap (final (main world_spaced) initial) in
  let pr := record_of "acme" "core" data_5 3 in
  (In pr (fst (classify repos m)) <-> In (pr_repo pr) (map clean repos))
  /\ (In pr (snd (classify repos m)) <-> ~ In (pr_repo pr) (map clean repos)).
Proof.
  intros repos m pr.
  apply (proj1 (classification_partition repos m) pr).
  vm_compute. left. reflexivity.
Defined.

(** ** Merging *)

(** C4, as the specification states it, fails: the configuration names the
    repository [Acme/Core], the search gives the locator of its pull
    request 5 under [acme/core], and the platform answers both spellings
    with the same record.  The entry written from the listing holds the
    repository [Acme/Core]; the write from the search replaces it with an
    entry that holds [acme/core], and the pull request passes from the
    owned records to the others. *)
Lemma later_write_differs :
  let repos := array_or_empty (cfg_repos doc_case) in
  let listed := final (repos_loop world_case 200 repos) initial in
  let merged := final (main world_case) initial in
  calls merged
  = [CallList "Acme" "Core" 0; CallGet "Acme" "Core" 5;
     CallSearch "is:pr is:open org:acme author:alice";
     CallGet "acme" "core" 5]
  /\ pulls_get world_case "Acme" "Core" 5 = inr data_5
  /\ pulls_get world_case "acme" "core" 5 = inr data_5
  /\ map_keys (prMap listed) = [html_url data_5]
  /\ map_keys (prMap merged) = [html_url data_5]
  /\ ~ (map_get (html_url data_5) (prMap merged)
        = map_get (html_url data_5) (prMap listed))
  /\ classify repos (prMap listed) = ([record_of "Acme" "Core" data_5 3], [])
  /\ classify repos (prMap merged) = ([], [record_of "acme" "core" data_5 3]).
Proof.
  vm_compute. repeat split. discriminate.
Qed.

(** C4, amended.  The merged collection has one entry for each URL: at the
    end of a run the keys of the map are pairwise distinct, and the URL of
    every record whose detail fetch succeeded, whatever the path and
    however many times, occurs exactly once among them.  A write stores the
    record made of the owner and the repository the caller passed, of the
    answer of the platform and of the day count read at that moment; a
    later write for the same URL, whoever the caller, replaces the entry
    where it stands, without adding one.  The content is the same when the
    record written is the one already stored: fetching the same record
    again with the same owner and repository, on a day count that has not
    changed, changes nothing. *)
Theorem merge_is_idempotent (W : world) :
  NoDup (map_keys (prMap (final (main W) initial)))
  /\ (forall owner repo number data,
      In (CallGet owner repo number) (calls (final (main W) initial)) ->
      pulls_get W owner repo number = inr data ->
      count_occ string_dec (map_keys (prMap (final (main W) initial)))
        (html_url data) = 1%nat)
  /\ (forall owner repo number data st,
      pulls_get W owner repo number = inr data ->
      let st' := final (addPR W owner repo number) st in
      let written := record_of owner repo data (days_at W st data) in
      map_get (html_url data) (prMap st') = Some written
      /\ (In (html_url data) (map_keys (prMap st)) ->
          map_keys (prMap st') = map_keys (prMap st))
      /\ (map_get (html_url data) (prMap st) = Some written ->
          prMap st' = prMap st)
      /\ (days_at W st' data = days_at W st data ->
          prMap (final (addPR W owner repo number) st') = prMap st')
      /\ (forall owner' repo' number',
          pulls_get W owner' repo' number' = inr data ->
          let st'' := final (addPR W owner' repo' number') st' in
          map_get (html_url data) (prMap st'')
          = Some (record_of owner' repo' data (days_at W st' data))
          /\ map_keys (prMap st'') = map_keys (prMap st'))).
Proof.
  destruct (main_merged_once W) as [Hnd Hin].
  split; [exact Hnd|]. split.
  - intros owner repo number data Hcall Hget.
    apply NoDup_count_occ_one; [exact Hnd|]. eapply Hin; eassumption.
  - intros owner repo number data st Hget st' written.
    subst st' written. unfold final. rewrite addPR_eq, Hget. cbn [snd].
    split; [apply map_get_set_same|]. split; [|split; [|split]].
    + apply map_keys_set_present.
    + apply map_set_same.
    + intros Hdays. rewrite addPR_eq, Hget. cbn [snd].
      unfold stored at 1. cbn [prMap]. rewrite Hdays.
      apply map_set_same. apply map_get_set_same.
    + intros owner' repo' number' Hget'.
      rewrite addPR_eq, Hget'. cbn [snd].
      split; [apply map_get_set_same|].
      apply map_keys_set_present. unfold stored. cbn [prMap].
      apply map_keys_set_In. now left.
Qed.

Lemma merge_is_idempotent_witness :
  calls (final (main world_both) initial)
  = [CallList "acme" "core" 0; CallGet "acme" "core" 5;
     CallSearch "is:pr is:open org:acme author:alice";
     CallGet "acme" "core" 5]
  /\ count_occ string_dec
       (map_keys (prMap (final (main world_both) initial)))
       (html_url data_5) = 1%nat
  /\ map_size (prMap (final (main world_both) initial)) = 1.
Proof.
  split; [reflexivity|]. split; [|reflexivity].
  apply (proj1 (proj2 (merge_is_idempotent world_both)) "acme" "core" 5).
  - vm_compute. right. left. reflexivity.
  - reflexivity.
Defined.

(** ** Rendering *)






(** ** The cap on the collection *)

(** C1 fails in the search path.  With a cap of one record and one author
    whose search finds two pull requests, both are fetched and merged: the
    loop over the items of a search does not look at the size of the map,
    which the loop over the records of a listing page does. *)
Theorem cap_passed_by_search :
  cap_or (cfg_max_total_prs doc_one_author) 200 = 1
  /\ outcome (main world_two_found) initial = Ok tt
  /\ calls (final (main world_two_found) initial)
     = [CallSearch "is:pr is:open org:acme author:alice";
        CallGet "acme" "core" 5; CallGet "acme" "core" 7]
  /\ map_size (prMap (final (main world_two_found) initial)) = 2.
Proof. vm_compute. repeat split. Qed.

(** C2 fails in the listing path.  With a cap of one record and a listing
    of two pages, the record of the first page fills the map, and the second
    page is requested all the same: [break] leaves the loop over the records
    of a page, not the loop over the pages. *)
Theorem page_requested_at_cap :
  let st1 :=
    final (prs_loop world_two_pages 1 "acme" "core" [Item (Some 5)])
      (with_call (CallList "acme" "core" 0) initial) in
  cap_or (cfg_max_total_prs doc_one_repo) 200 = 1
  /\ map_size (prMap st1) = 1
  /\ pages_loop world_two_pages 1 "acme" "core" 1
       [inr (Some [Item (Some 7)])] st1
     = (Ok tt, with_call (CallList "acme" "core" 1) st1)
  /\ calls (final (main world_two_pages) initial)
     = [CallList "acme" "core" 0; CallGet "acme" "core" 5;
        CallList "acme" "core" 1].
Proof. vm_compute. repeat split. Qed.

(** ** The example of the specification *)

(** Two records are merged, both owned, none in the other set; the owned
    section has one group, [acme/core], whose header counts two records,
    and the pull request 7, the older one, comes first. *)
Example end_to_end :
  let st := final (main world_example) initial in
  let repos := array_or_empty (cfg_repos doc_example) in
  outcome (main world_example) initial = Ok tt
  /\ map_size (prMap st) = 2
  /\ map (fun pr => pr_number pr) (fst (classify repos (prMap st))) = [5; 7]
  /\ snd (classify repos (prMap st)) = []
  /\ map (fun g => (fst g, map (fun pr => (pr_number pr, pr_days pr)) (snd g)))
       (groups_of (fst (classify repos (prMap st))))
     = [("acme/core", [(7, 9); (5, 3)])]
  /\ map (fun g => repo_header (fst g) (snd g))
       (groups_of (fst (classify repos (prMap st))))
     = ["*acme/core* — 2 open"].
Proof. vm_compute. repeat split. Qed.

End Properties.

(* ================================================================== *)
(** * Further facts *)
(* ================================================================== *)

Module MoreFacts.
Import Js Platform Digest Spec Cover JsFacts UrlFacts DigestFacts RenderFacts.
Local Open Scope script_scope.

(** ** The run after the guards *)

Lemma digest_finish W org repos users cap0 cap cap' st :
  digest W org repos users cap0 cap cap' st
  = finish W repos cap0 (collect W org repos users cap cap' st).
Proof.
  unfold digest, finish, digest_text. unfold bind at 1.
  destruct (collect W org repos users cap cap' st) as [[[]|e] st'];
    [|reflexivity].
  unfold bind. rewrite cleaned_all_eq.
  destruct (forallb can_clean repos); [|reflexivity].
  destruct (classify repos (prMap st')) as [teamOwned teamNonOwned].
  reflexivity.
Qed.

Lemma main_finish W p cfg :
  accepted W p cfg ->
  main W initial
  = finish W (array_or_empty (cfg_repos cfg)) (repo_cap cfg) (collected W cfg).
Proof.
  intros (Hp & Hne & Hex & Hr & Horg & Hlist).
  rewrite (main_accepted W p cfg) by assumption.
  apply digest_finish.
Qed.

(** How a run goes: a guard fails, the document is [null], or the
    configuration is accepted. *)
Lemma run_cases W :
  (exists msg, main W initial = (Ok tt, failed_with msg))
  \/ (exists e, main W initial = (Throw e, initial))
  \/ (exists p cfg, accepted W p cfg).
Proof.
  destruct (start_cases W)
    as [msg _ Hrun | _ [e Hrun] _ | p cfg Hp Hne Hex Hr Horg Hlist _].
  - left. now exists msg.
  - right. left. now exists e.
  - right. right. exists p, cfg. repeat split; assumption.
Qed.

Lemma accepted_unique W p cfg p' cfg' :
  accepted W p cfg -> accepted W p' cfg' -> p = p' /\ cfg = cfg'.
Proof.
  intros (Hp & _ & _ & Hr & _) (Hp' & _ & _ & Hr' & _).
  rewrite Hp in Hp'. injection Hp' as <-.
  rewrite Hr in Hr'. now injection Hr' as <-.
Qed.

Lemma final_bind {A B} (m : M A) (k : A -> M B) st :
  final (bind m k) st
  = match m st with
    | (Ok a, st') => final (k a) st'
    | (Throw _, st') => st'
    end.
Proof. unfold final, bind. now destruct (m st) as [[a|e] st']. Qed.

Lemma finish_state W repos cap r :
  prMap (snd (finish W repos cap r)) = prMap (snd r)
  /\ calls (snd (finish W repos cap r)) = calls (snd r)
  /\ ticks (snd (finish W repos cap r)) = ticks (snd r)
  /\ failed (snd (finish W repos cap r)) = failed (snd r).
Proof.
  destruct r as [[[]|e] st]; simpl; auto.
  destruct (forallb can_clean repos); simpl; auto.
Qed.

(** ** What a detail fetch changes *)

Lemma addPR_effect W owner repo number st :
  let st' := final (addPR W owner repo number) st in
  map_size (prMap st) <= map_size (prMap st') <= map_size (prMap st) + 1
  /\ List.length (calls st') = S (List.length (calls st))
  /\ (exists added, map_keys (prMap st') = (map_keys (prMap st) ++ added)%list).
Proof.
  unfold final. rewrite addPR_eq.
  destruct (pulls_get W owner repo number) as [e|data].
  - assert (H : forall r : result unit,
               snd (r, with_call (CallGet owner repo number) st)
               = with_call (CallGet owner repo number) st) by reflexivity.
    destruct (is_404 e); rewrite H; simpl;
      (split; [lia|]; split; [rewrite length_app; simpl; lia|];
       exists []; now rewrite app_nil_r).
  - simpl. split; [apply map_size_set_le|].
    split; [rewrite length_app; simpl; lia|].
    destruct (in_dec string_dec (html_url data) (map_keys (prMap st))).
    + exists []. rewrite map_keys_set_present by assumption.
      now rewrite app_nil_r.
    + exists [html_url data]. now apply map_keys_set_absent.
Qed.

(** The loop over the items of a search adds at most one entry and one
    call for each item. *)
Lemma items_loop_effect W items st :
  let st' := final (items_loop W items) st in
  map_size (prMap st') <= map_size (prMap st) + Z.of_nat (List.length items)
  /\ (List.length (calls st') <= List.length (calls st) + List.length items)%nat.
Proof.
  revert st. induction items as [|it rest IH]; intros st.
  - unfold final. simpl. split; lia.
  - assert (Hrest : let st' := final (items_loop W rest) st in
              map_size (prMap st')
              <= map_size (prMap st) + Z.of_nat (List.length (it :: rest))
              /\ (List.length (calls st')
                  <= List.length (calls st) + List.length (it :: rest))%nat).
    { specialize (IH st). simpl in *. lia. }
    cbn [items_loop]. destruct it as [|[url|]]; try exact Hrest.
    destruct (url =? "")%string; [exact Hrest|].
    destruct (url_match url) as [[[owner repo] digits]|]; [|exact Hrest].
    destruct (Number_of digits) as [number|]; [|exact Hrest].
    cbv zeta. rewrite final_bind.
    pose proof (addPR_effect W owner repo number st)
      as (Hsize & Hcalls & _).
    unfold final in Hsize, Hcalls.
    destruct (addPR W owner repo number st)
      as [[[]|e] st1]; simpl in Hsize, Hcalls.
    + specialize (IH st1). simpl in *. lia.
    + simpl. lia.
Qed.

Lemma paginate_search_eq W q st :
  paginate_search W q st
  = match search_issues W q with
    | inl e => (Throw e, with_call (CallSearch q) st)
    | inr pages =>
        (Ok (flat_map page_items pages), with_call (CallSearch q) st)
    end.
Proof.
  unfold paginate_search, bind, remote, await. simpl.
  now destruct (search_issues W q).
Qed.

(** ** The size of the collection *)

Lemma overshoot_cap cap per_author : cap <= overshoot cap per_author.
Proof. unfold overshoot. lia. Qed.

(** An author is started below the cap only, and adds at most one entry
    for each of the results that are kept. *)
Lemma users_loop_bound W org cap per_author us st :
  0 <= per_author ->
  map_size (prMap st) <= overshoot cap per_author ->
  map_size (prMap (final (users_loop W org cap per_author us) st))
  <= overshoot cap per_author.
Proof.
  intros Hper. revert st. induction us as [|userRaw rest IH]; intros st Hst.
  - exact Hst.
  - cbn [users_loop]. rewrite final_bind. unfold size at 1.
    destruct (cap <=? map_size (prMap st)) eqn:Hcap; [exact Hst|].
    apply Z.leb_gt in Hcap.
    rewrite final_bind, cleaned_eq.
    destruct (can_clean userRaw); [|exact Hst].
    destruct (strip_at (clean userRaw) =? "")%string; [now apply IH|].
    rewrite final_bind, String_of_eq.
    destruct (printable org); [|exact Hst].
    rewrite final_bind, paginate_search_eq.
    destruct (search_issues W _) as [e|pages]; [exact Hst|].
    rewrite final_bind.
    pose proof (items_loop_effect W
                  (slice0 per_author (flat_map page_items pages))
                  (with_call (CallSearch
                     ("is:pr is:open org:" ++ to_string org ++ " author:"
                        ++ strip_at (clean userRaw))) st)) as [Hsize _].
    pose proof (slice0_length per_author (flat_map page_items pages) Hper)
      as Hlen.
    unfold final in Hsize. simpl in Hsize.
    destruct (items_loop W _ _) as [[[]|e] st1]; simpl in Hsize.
    + apply IH. unfold overshoot. lia.
    + unfold overshoot. lia.
Qed.

Lemma collect_bound W org repos users cap per_author :
  0 <= cap -> 0 <= per_author ->
  map_size (prMap (final (collect W org repos users cap per_author) initial))
  <= overshoot cap per_author.
Proof.
  intros Hcap Hper. unfold collect. rewrite final_bind.
  pose proof (repos_loop_within_cap W cap repos initial Hcap) as Hrepos.
  destruct (repos_loop W cap repos initial) as [[[]|e] st];
    unfold within_cap in Hrepos.
  - apply users_loop_bound; [exact Hper|].
    pose proof (overshoot_cap cap per_author). lia.
  - pose proof (overshoot_cap cap per_author). lia.
Qed.

Lemma collect_listing_bound W org repos cap per_author :
  0 <= cap ->
  map_size (prMap (final (collect W org repos [] cap per_author) initial))
  <= cap.
Proof.
  intros Hcap. unfold collect. rewrite final_bind.
  pose proof (repos_loop_within_cap W cap repos initial Hcap) as Hrepos.
  now destruct (repos_loop W cap repos initial) as [[[]|e] st].
Qed.

Lemma collect_at_cap W org repos users cap per_author st :
  cap <= map_size (prMap st) ->
  collect W org repos users cap per_author st = (Ok tt, st).
Proof.
  intros H. unfold collect, bind.
  rewrite repos_loop_at_cap by exact H.
  now apply users_loop_at_cap.
Qed.

(** ** Entries that are skipped *)

Lemma repos_loop_skipped W cap rs st :
  forallb can_clean rs = true ->
  forallb skipped_repo rs = true -> repos_loop W cap rs st = (Ok tt, st).
Proof.
  revert st. induction rs as [|repoFull rest IH]; intros st Hc H;
    [reflexivity|].
  simpl in Hc, H. apply andb_prop in Hc, H.
  destruct Hc as [Hclean Hc], H as [Hskip Hrest].
  cbn [repos_loop]. unfold bind at 1, size at 1.
  destruct (cap <=? map_size (prMap st)); [reflexivity|].
  unfold bind at 1. rewrite cleaned_eq, Hclean.
  unfold skipped_repo in Hskip.
  destruct (split "/" (clean repoFull)) as [|owner [|repo parts]];
    simpl; auto.
  rewrite Hskip. auto.
Qed.

Lemma users_loop_skipped W org cap per_author us st :
  forallb can_clean us = true ->
  forallb skipped_user us = true ->
  users_loop W org cap per_author us st = (Ok tt, st).
Proof.
  revert st. induction us as [|userRaw rest IH]; intros st Hc H;
    [reflexivity|].
  simpl in Hc, H. apply andb_prop in Hc, H.
  destruct Hc as [Hclean Hc], H as [Hskip Hrest].
  cbn [users_loop]. unfold bind at 1, size at 1.
  destruct (cap <=? map_size (prMap st)); [reflexivity|].
  unfold bind at 1. rewrite cleaned_eq, Hclean.
  unfold skipped_user in Hskip. rewrite Hskip. auto.
Qed.

(** ** Where the entries come from *)

Lemma map_set_In {V} k (v : V) k' v' m :
  In (k', v') (map_set k v m) -> (k', v') = (k, v) \/ In (k', v') m.
Proof.
  induction m as [|[k0 v0] m IH]; simpl.
  - intros [H|[]]. now left.
  - destruct (String.eqb k k0); simpl.
    + intros [H|H]; [now left | right; now right].
    + intros [H|H]; [right; now left|].
      destruct (IH H); [now left | right; now right].
Qed.

Lemma map_In_key {V} k (v : V) m : In (k, v) m -> In k (map_keys m).
Proof. intros H. apply (in_map fst) in H. exact H. Qed.

Lemma fetched_later W st st' k v :
  (forall c, In c (calls st) -> In c (calls st')) ->
  (ticks st <= ticks st')%nat ->
  fetched W st k v -> fetched W st' k v.
Proof.
  intros Hcalls Hticks (owner & repo & number & data & t & H1 & H2 & H3 & H4 & H5).
  exists owner, repo, number, data, t. repeat split; auto. lia.
Qed.

Lemma addPR_fetched W owner repo number :
  triple (fun st => forall k v, In (k, v) (prMap st) -> fetched W st k v)
    (addPR W owner repo number)
    (fun _ st => forall k v, In (k, v) (prMap st) -> fetched W st k v)
    (fun _ st => forall k v, In (k, v) (prMap st) -> fetched W st k v).
Proof.
  apply addPR_keeps.
  - intros st data Hget H k v Hin. simpl in Hin.
    apply map_set_In in Hin. destruct Hin as [Heq|Hin].
    + injection Heq as -> ->.
      exists owner, repo, number, data, (ticks st). simpl.
      repeat split; auto.
      apply in_app_iff. right. now left.
    + apply (fetched_later W st); simpl; auto.
      intros c Hc. apply in_app_iff. now left.
  - intros st e Hget H k v Hin. simpl in Hin.
    apply (fetched_later W st); simpl; auto.
    intros c Hc. apply in_app_iff. now left.
Qed.

Lemma collect_fetched W org repos users cap per_author :
  triple (fun st => forall k v, In (k, v) (prMap st) -> fetched W st k v)
    (collect W org repos users cap per_author)
    (fun _ st => forall k v, In (k, v) (prMap st) -> fetched W st k v)
    (fun _ st => forall k v, In (k, v) (prMap st) -> fetched W st k v).
Proof.
  apply collect_inv; auto.
  - intros owner repo i st H k v Hin.
    apply (fetched_later W st); simpl; auto.
    intros c Hc. apply in_app_iff. now left.
  - intros q st H k v Hin.
    apply (fetched_later W st); simpl; auto.
    intros c Hc. apply in_app_iff. now left.
  - apply addPR_fetched.
Qed.

Lemma author_of_not_empty login : author_of login <> "".
Proof.
  unfold author_of. destruct login as [s|]; [|discriminate].
  destruct (s =? "")%string eqn:E; [discriminate|].
  now apply String.eqb_neq.
Qed.

(** ** Entries stay where they are *)

Lemma addPR_keys W owner repo number (keys : list string) :
  triple (fun st => exists added,
            map_keys (prMap st) = (keys ++ added)%list)
    (addPR W owner repo number)
    (fun _ st => exists added, map_keys (prMap st) = (keys ++ added)%list)
    (fun _ st => exists added, map_keys (prMap st) = (keys ++ added)%list).
Proof.
  intros st [added Hst].
  pose proof (addPR_effect W owner repo number st) as (_ & _ & [more Hmore]).
  unfold final in Hmore. rewrite Hst in Hmore.
  destruct (addPR W owner repo number st) as [[[]|e] st']; simpl in Hmore;
    exists (added ++ more)%list; now rewrite app_assoc.
Qed.

Lemma repos_loop_keys W cap (keys : list string) rs :
  triple (fun st => exists added,
            map_keys (prMap st) = (keys ++ added)%list)
    (repos_loop W cap rs)
    (fun _ st => exists added, map_keys (prMap st) = (keys ++ added)%list)
    (fun _ st => exists added, map_keys (prMap st) = (keys ++ added)%list).
Proof.
  apply repos_loop_inv.
  - intros owner repo i st H. exact H.
  - intros e st H. exact H.
  - intros owner repo number.
    eapply triple_weaken;
      [apply (addPR_keys W owner repo number keys) | | auto | auto].
    simpl. intros st [H _]. exact H.
Qed.

Lemma users_loop_keys W org cap per_author (keys : list string) us :
  triple (fun st => exists added,
            map_keys (prMap st) = (keys ++ added)%list)
    (users_loop W org cap per_author us)
    (fun _ st => exists added, map_keys (prMap st) = (keys ++ added)%list)
    (fun _ st => exists added, map_keys (prMap st) = (keys ++ added)%list).
Proof.
  apply users_loop_inv.
  - intros q st H. exact H.
  - intros e st H. exact H.
  - intros. apply addPR_keys.
Qed.

Lemma collect_keys W org repos users cap per_author (keys : list string) :
  triple (fun st => exists added,
            map_keys (prMap st) = (keys ++ added)%list)
    (collect W org repos users cap per_author)
    (fun _ st => exists added, map_keys (prMap st) = (keys ++ added)%list)
    (fun _ st => exists added, map_keys (prMap st) = (keys ++ added)%list).
Proof.
  apply collect_inv.
  - intros owner repo i st H. exact H.
  - intros q st H. exact H.
  - intros e st H. exact H.
  - intros. apply addPR_keys.
Qed.

(** ** Grouping the records of a section *)








(** ** Records of the same age *)




(** ** [split] *)

Lemma split_not_nil sep s : split sep s <> [].
Proof.
  destruct s as [|c s]; simpl; [discriminate|].
  destruct (Ascii.eqb c sep); [discriminate|].
  destruct (split sep s); discriminate.
Qed.

(** Joining the parts with the separator gives the text back. *)
Lemma split_join sep s :
  String.concat (String sep "") (split sep s) = s.
Proof.
  induction s as [|c s IH]; [reflexivity|].
  cbn [split].
  destruct (split sep s) as [|h t] eqn:Hs; [now apply split_not_nil in Hs|].
  destruct (Ascii.eqb c sep) eqn:E.
  - apply Ascii.eqb_eq in E. subst c.
    change (String.concat (String sep "") ("" :: h :: t))
      with (String sep (String.concat (String sep "") (h :: t))).
    now rewrite IH.
  - destruct t as [|y l].
    + simpl in *. now rewrite IH.
    + change (String.concat (String sep "") (String c h :: y :: l))
        with (String c (String.concat (String sep "") (h :: y :: l))).
      now rewrite IH.
Qed.

(** No part holds the separator. *)
Lemma split_without sep s part :
  In part (split sep s) -> without sep part = true.
Proof.
  revert part. induction s as [|c s IH]; intros part; cbn [split].
  - intros [<-|[]]. reflexivity.
  - destruct (Ascii.eqb c sep) eqn:E.
    + intros [<-|H]; [reflexivity | now apply IH].
    + destruct (split sep s) as [|h t] eqn:Hs.
      * intros [<-|[]]. unfold without. simpl. now rewrite E.
      * intros [<-|H].
        -- unfold without. simpl. rewrite E. simpl.
           apply IH. now left.
        -- apply IH. now right.
Qed.



Lemma split_slashes s : List.length (split "/" s) = S (slashes s).
Proof.
  induction s as [|c s IH]; [reflexivity|].
  cbn [split slashes]. destruct (Ascii.eqb c "/"); simpl.
  - now rewrite IH.
  - destruct (split "/" s) as [|h t]; simpl in *; lia.
Qed.

(** With one "/" at most, the two parts the script reads are the whole
    entry. *)
Lemma split_two s owner repo :
  (slashes s <= 1)%nat ->
  nth_error (split "/" s) 0 = Some owner ->
  nth_error (split "/" s) 1 = Some repo ->
  s = owner ++ "/" ++ repo.
Proof.
  intros Hs Ho Hr. pose proof (split_slashes s) as Hlen.
  pose proof (split_join "/" s) as Hjoin.
  destruct (split "/" s) as [|o [|r [|x l]]]; simpl in *;
    try discriminate; try lia.
  injection Ho as <-. injection Hr as <-. now symmetry.
Qed.

(** ** Texts of digits *)



(** ** Invariants of the loops, knowing what is fetched *)

Section Guarded.
Variable W : world.
Variable org : value.
Variables cap per_author : Z.
Variable P : state -> Prop.
Variable E : exn -> state -> Prop.
(** What holds of the owner and the repository of every detail fetch. *)
Variable G : string -> string -> Prop.

Hypothesis P_list :
  forall owner repo i st, P st -> P (with_call (CallList owner repo i) st).
Hypothesis P_search :
  forall q st, P st -> P (with_call (CallSearch q) st).
Hypothesis P_err : forall e st, P st -> E e st.
Hypothesis P_add :
  forall owner repo number,
    G owner repo -> triple P (addPR W owner repo number) (fun _ => P) E.

Lemma prs_loop_guarded owner repo prs :
  G owner repo ->
  triple P (prs_loop W cap owner repo prs) (fun _ => P) E.
Proof.
  intros HG. induction prs as [|pr rest IH]; simpl.
  - now apply triple_ret.
  - eapply triple_bind; [apply triple_size|].
    intros n. simpl.
    assert (Hskip : triple (fun st => P st /\ n = map_size (prMap st))
                      (prs_loop W cap owner repo rest) (fun _ => P) E)
      by (eapply triple_weaken; [exact IH | tauto | auto | auto]).
    destruct (cap <=? n); [apply triple_ret; tauto|].
    destruct pr as [|[number|]]; try exact Hskip.
    destruct (number =? 0); [exact Hskip|].
    eapply triple_bind; [|intros ?; exact IH].
    eapply triple_weaken; [apply (P_add _ _ number HG) | tauto | auto | auto].
Qed.

Lemma pages_loop_guarded owner repo pages i :
  G owner repo ->
  triple P (pages_loop W cap owner repo i pages) (fun _ => P) E.
Proof.
  intros HG. revert i. induction pages as [|p rest IH]; intros i; simpl.
  - now apply triple_ret.
  - eapply triple_bind with (Q := fun _ => P).
    { intros st HP. simpl. now apply P_list. }
    intros ?. eapply triple_bind.
    { apply triple_await. intros e st _. apply P_err. }
    intros page. simpl. eapply triple_bind with (Q := fun _ => P).
    { eapply triple_weaken;
        [apply (prs_loop_guarded _ _ _ HG) | tauto | auto | auto]. }
    intros ?. apply IH.
Qed.

Lemma repos_loop_guarded rs :
  (forall entry owner repo,
      In entry rs ->
      nth_error (split "/" (clean entry)) 0 = Some owner ->
      nth_error (split "/" (clean entry)) 1 = Some repo ->
      owner <> "" -> repo <> "" -> G owner repo) ->
  triple P (repos_loop W cap rs) (fun _ => P) E.
Proof.
  induction rs as [|repoFull rest IH]; intros HG; simpl.
  - now apply triple_ret.
  - assert (IH' : triple P (repos_loop W cap rest) (fun _ => P) E).
    { apply IH. intros entry owner repo Hin. apply HG. now right. }
    eapply triple_bind; [apply triple_size|].
    intros n. simpl.
    destruct (cap <=? n); [apply triple_ret; tauto|].
    eapply triple_bind with (Q := fun text st => P st /\ text = clean repoFull).
    { eapply triple_weaken;
        [apply (triple_cleaned P E), P_err | tauto | | auto].
      simpl. tauto. }
    intros text.
    assert (Hskip : triple (fun st => P st /\ text = clean repoFull)
                      (repos_loop W cap rest) (fun _ => P) E)
      by (eapply triple_weaken; [exact IH' | tauto | auto | auto]).
    specialize (HG repoFull). simpl.
    destruct (split "/" text) as [|owner [|repo parts]] eqn:Hparts;
      simpl; try exact Hskip.
    destruct (owner =? "")%string eqn:Eo; [exact Hskip|].
    destruct (repo =? "")%string eqn:Er; [exact Hskip|].
    apply String.eqb_neq in Eo, Er. simpl.
    intros st [HP ->]. revert st HP.
    change (triple P
              (pages_loop W cap owner repo 0 (pulls_list W owner repo) ;;
               repos_loop W cap rest) (fun _ => P) E).
    eapply triple_bind with (Q := fun _ => P); [|intros ?; exact IH'].
    apply pages_loop_guarded.
    apply HG; auto; [now left | now rewrite Hparts | now rewrite Hparts].
Qed.

Hypothesis G_url :
  forall url owner repo digits,
    url_match url = Some (owner, repo, digits) -> G owner repo.

Lemma items_loop_guarded items :
  triple P (items_loop W items) (fun _ => P) E.
Proof.
  induction items as [|it rest IH]; simpl.
  - now apply triple_ret.
  - destruct it as [|[url|]]; try exact IH.
    destruct (url =? "")%string; [exact IH|].
    destruct (url_match url) as [[[owner repo] digits]|] eqn:Hm; [|exact IH].
    destruct (Number_of digits) as [number|]; [|exact IH].
    eapply triple_bind; [|intros ?; exact IH].
    apply P_add. eapply G_url. exact Hm.
Qed.

Lemma users_loop_guarded us :
  triple P (users_loop W org cap per_author us) (fun _ => P) E.
Proof.
  induction us as [|userRaw rest IH]; simpl.
  - now apply triple_ret.
  - eapply triple_bind; [apply triple_size|].
    intros n. simpl.
    destruct (cap <=? n); [apply triple_ret; tauto|].
    eapply triple_bind with (Q := fun _ => P).
    { eapply triple_weaken;
        [apply (triple_cleaned P E), P_err | tauto | | auto].
      simpl. tauto. }
    intros text. simpl.
    destruct (strip_at text =? "")%string; [exact IH|].
    eapply triple_bind with (Q := fun _ => P).
    { eapply triple_weaken;
        [apply (triple_String_of P E), P_err | tauto | | auto].
      simpl. tauto. }
    intros org_text. simpl.
    eapply triple_bind with (Q := fun _ => P);
      [apply (paginate_search_inv W P E P_search P_err)|].
    intros results.
    eapply triple_bind with (Q := fun _ => P); [|intros ?; exact IH].
    apply items_loop_guarded.
Qed.
End Guarded.

Lemma main_fetched W k v :
  In (k, v) (prMap (final (main W) initial)) ->
  fetched W (final (main W) initial) k v.
Proof.
  unfold final.
  destruct (run_cases W) as [[msg Hrun] | [[e Hrun] | [p [cfg Hacc]]]];
    try (rewrite Hrun; simpl; intros []).
  rewrite (main_finish W p cfg Hacc).
  pose proof (collect_fetched W (cfg_org cfg)
                (array_or_empty (cfg_repos cfg))
                (array_or_empty (cfg_users cfg))
                (total_cap cfg) (search_cap cfg) initial
                (fun k v (H : In (k, v) []) => match H with end)) as Hq.
  fold (collected W cfg) in Hq.
  destruct (collected W cfg) as [[[]|e] st]; simpl;
    [destruct (forallb can_clean _)|]; simpl; intros Hin;
    apply (fetched_later W st); auto.
Qed.

(** ** Records of the listed repositories *)

Lemma map_values_set_In {V} k (v : V) v' m :
  In v' (map_values (map_set k v m)) -> v' = v \/ In v' (map_values m).
Proof.
  unfold map_values. intros H. apply in_map_iff in H.
  destruct H as [[k0 v0] [<- H]]. apply map_set_In in H.
  destruct H as [[= -> ->]|H]; [now left|].
  right. apply in_map_iff. now exists (k0, v0).
Qed.

Lemma addPR_owned W repos owner repo number :
  In (owner ++ "/" ++ repo) (map clean repos) ->
  triple (fun st => forall v, In v (map_values (prMap st)) ->
                              owned repos v = true)
    (addPR W owner repo number)
    (fun _ st => forall v, In v (map_values (prMap st)) ->
                           owned repos v = true)
    (fun _ st => forall v, In v (map_values (prMap st)) ->
                           owned repos v = true).
Proof.
  intros Hin. apply addPR_keeps.
  - intros st data _ H v Hv. simpl in Hv.
    apply map_values_set_In in Hv. destruct Hv as [->|Hv]; [|now apply H].
    unfold owned. simpl. now apply has_In.
  - intros st e _ H. exact H.
Qed.

Lemma repos_loop_owned W cap repos :
  (forall entry, In entry repos -> one_slash entry) ->
  triple (fun st => forall v, In v (map_values (prMap st)) ->
                              owned repos v = true)
    (repos_loop W cap repos)
    (fun _ st => forall v, In v (map_values (prMap st)) ->
                           owned repos v = true)
    (fun _ st => forall v, In v (map_values (prMap st)) ->
                           owned repos v = true).
Proof.
  intros Hone.
  apply (repos_loop_guarded W cap _ _
           (fun owner repo => In (owner ++ "/" ++ repo) (map clean repos))).
  - intros owner repo i st H. exact H.
  - intros e st H. exact H.
  - intros owner repo number HG. now apply addPR_owned.
  - intros entry owner repo Hin Ho Hr _ _.
    rewrite <- (split_two (clean entry) owner repo (Hone entry Hin) Ho Hr).
    now apply in_map.
Qed.

(** ** The owner and the repository of a detail fetch *)

Lemma addPR_names W owner repo number :
  segment owner /\ segment repo ->
  triple (fun st => forall o r n, In (CallGet o r n) (calls st) ->
                                  segment o /\ segment r)
    (addPR W owner repo number)
    (fun _ st => forall o r n, In (CallGet o r n) (calls st) ->
                               segment o /\ segment r)
    (fun _ st => forall o r n, In (CallGet o r n) (calls st) ->
                               segment o /\ segment r).
Proof.
  intros HG. apply addPR_keeps.
  - intros st data _ H o r n Hin. simpl in Hin. apply in_app_iff in Hin.
    destruct Hin as [Hin|[[= <- <- <-]|[]]]; [eapply H; eassumption | exact HG].
  - intros st e _ H o r n Hin. simpl in Hin. apply in_app_iff in Hin.
    destruct Hin as [Hin|[[= <- <- <-]|[]]]; [eapply H; eassumption | exact HG].
Qed.

Lemma collect_names W org repos users cap per_author :
  triple (fun st => forall o r n, In (CallGet o r n) (calls st) ->
                                  segment o /\ segment r)
    (collect W org repos users cap per_author)
    (fun _ st => forall o r n, In (CallGet o r n) (calls st) ->
                               segment o /\ segment r)
    (fun _ st => forall o r n, In (CallGet o r n) (calls st) ->
                               segment o /\ segment r).
Proof.
  assert (Hother : forall c st,
             (forall o r n, c <> CallGet o r n) ->
             (forall o r n, In (CallGet o r n) (calls st) ->
                            segment o /\ segment r) ->
             forall o r n, In (CallGet o r n) (calls (with_call c st)) ->
                           segment o /\ segment r).
  { intros c st Hc H o r n Hin. simpl in Hin. apply in_app_iff in Hin.
    destruct Hin as [Hin|[Heq|[]]]; [eapply H; eassumption|].
    now apply Hc in Heq. }
  unfold collect. eapply triple_bind.
  - apply (repos_loop_guarded W cap _ _
             (fun owner repo => segment owner /\ segment repo)).
    + intros owner repo i st H. apply Hother; [discriminate | exact H].
    + intros e st H. exact H.
    + intros owner repo number HG. now apply addPR_names.
    + intros entry owner repo Hin Ho Hr Hno Hnr.
      apply nth_error_In in Ho, Hr.
      apply split_without in Ho, Hr. now repeat split.
  - intros ?.
    apply (users_loop_guarded W org cap per_author _ _
             (fun owner repo => segment owner /\ segment repo)).
    + intros q st H. apply Hother; [discriminate | exact H].
    + intros e st H. exact H.
    + intros owner repo number HG. now apply addPR_names.
    + intros url owner repo digits Hm. apply url_match_sound in Hm.
      destruct Hm as [prefix [_ [Ho [Hr _]]]]. now split.
Qed.

Lemma main_names W o r n :
  In (CallGet o r n) (calls (final (main W) initial)) ->
  segment o /\ segment r.
Proof.
  unfold final.
  destruct (run_cases W) as [[msg Hrun] | [[e Hrun] | [p [cfg Hacc]]]];
    try (rewrite Hrun; simpl; intros []).
  rewrite (main_finish W p cfg Hacc).
  rewrite (proj1 (proj2 (finish_state W _ _ _))).
  pose proof (collect_names W (cfg_org cfg)
                (array_or_empty (cfg_repos cfg))
                (array_or_empty (cfg_users cfg))
                (total_cap cfg) (search_cap cfg) initial
                (fun o r n (H : In (CallGet o r n) []) =>
                   match H with end)) as Hq.
  fold (collected W cfg) in Hq.
  destruct (collected W cfg) as [[[]|e] st]; simpl; intros Hin;
    eapply Hq; eassumption.
Qed.

(** ** The call that stops a run *)

Section Stop.
Variable W : world.
Variable org : value.
Variables cap per_author : Z.

Lemma all_answered_next c st :
  answer_error W c = None ->
  all_answered W st -> all_answered W (with_call c st).
Proof.
  intros Hc H c' Hin. simpl in Hin. apply in_app_iff in Hin.
  destruct Hin as [Hin|[<-|[]]]; auto.
Qed.

Lemma stopped_by_next c e st :
  answer_error W c = Some e ->
  all_answered W st -> thrown_at W e (with_call c st).
Proof. intros Hc H. left. now exists (calls st), c. Qed.

Lemma thrown_at_answered e st : all_answered W st -> thrown_at W e st.
Proof. intros H. now right. Qed.

Lemma addPR_stop owner repo number :
  triple (all_answered W) (addPR W owner repo number)
    (fun _ => all_answered W) (thrown_at W).
Proof.
  intros st H. rewrite addPR_eq.
  destruct (pulls_get W owner repo number) as [e|data] eqn:Hget.
  - destruct (is_404 e) eqn:H404.
    + apply all_answered_next; [|exact H]. simpl. now rewrite Hget, H404.
    + apply stopped_by_next; [|exact H]. simpl. now rewrite Hget, H404.
  - intros c Hin. simpl in Hin. apply in_app_iff in Hin.
    destruct Hin as [Hin|[<-|[]]]; [now apply H|].
    simpl. now rewrite Hget.
Qed.

Lemma prs_loop_stop owner repo prs :
  triple (all_answered W) (prs_loop W cap owner repo prs)
    (fun _ => all_answered W) (thrown_at W).
Proof.
  apply prs_loop_inv. intros o r n.
  eapply triple_weaken; [apply addPR_stop | | auto | auto].
  simpl. intros st [H _]. exact H.
Qed.

(** The pages left of a listing are the pages from the index [i] on. *)
Lemma pages_loop_stop owner repo pages i :
  (forall j p, nth_error pages j = Some p ->
               nth_error (pulls_list W owner repo) (i + j) = Some p) ->
  triple (all_answered W) (pages_loop W cap owner repo i pages)
    (fun _ => all_answered W) (thrown_at W).
Proof.
  revert i. induction pages as [|p rest IH]; intros i Hnth; simpl.
  - now apply triple_ret.
  - assert (Hp : nth_error (pulls_list W owner repo) i = Some p)
      by (rewrite <- (Nat.add_0_r i); now apply Hnth).
    intros st H. unfold bind at 1. simpl.
    fold (with_call (CallList owner repo i) st).
    unfold bind at 1. destruct p as [e|page]; simpl.
    + apply stopped_by_next; [|exact H]. simpl. now rewrite Hp.
    + assert (H1 : all_answered W (with_call (CallList owner repo i) st))
        by (apply all_answered_next; [simpl; now rewrite Hp | exact H]).
      pose proof (prs_loop_stop owner repo (page_data page) _ H1) as Hprs.
      unfold bind.
      destruct (prs_loop W cap owner repo (page_data page) _)
        as [[[]|e] st1]; [|exact Hprs].
      apply (IH (S i)); [|exact Hprs].
      intros j p' Hj. rewrite Nat.add_succ_l, <- Nat.add_succ_r.
      now apply Hnth.
Qed.

Lemma repos_loop_stop rs :
  triple (all_answered W) (repos_loop W cap rs)
    (fun _ => all_answered W) (thrown_at W).
Proof.
  induction rs as [|repoFull rest IH]; simpl.
  - now apply triple_ret.
  - eapply triple_bind; [apply triple_size|].
    intros n. simpl.
    destruct (cap <=? n); [apply triple_ret; tauto|].
    eapply triple_bind with (Q := fun _ => all_answered W).
    { eapply triple_weaken;
        [apply (triple_cleaned (all_answered W) (thrown_at W)),
           thrown_at_answered
        | tauto | | auto].
      simpl. tauto. }
    intros text. simpl.
    destruct (split "/" text) as [|owner [|repo parts]];
      simpl; try exact IH.
    destruct ((owner =? "")%string || (repo =? "")%string); [exact IH|].
    eapply triple_bind with (Q := fun _ => all_answered W);
      [|intros ?; exact IH].
    apply pages_loop_stop.
    intros j p Hj. exact Hj.
Qed.

Lemma users_loop_stop us :
  triple (all_answered W) (users_loop W org cap per_author us)
    (fun _ => all_answered W) (thrown_at W).
Proof.
  induction us as [|userRaw rest IH]; simpl.
  - now apply triple_ret.
  - eapply triple_bind; [apply triple_size|].
    intros n. simpl.
    destruct (cap <=? n); [apply triple_ret; tauto|].
    eapply triple_bind with (Q := fun _ => all_answered W).
    { eapply triple_weaken;
        [apply (triple_cleaned (all_answered W) (thrown_at W)),
           thrown_at_answered
        | tauto | | auto].
      simpl. tauto. }
    intros text. simpl.
    destruct (strip_at text =? "")%string; [exact IH|].
    eapply triple_bind with (Q := fun _ => all_answered W).
    { eapply triple_weaken;
        [apply (triple_String_of (all_answered W) (thrown_at W)),
           thrown_at_answered
        | tauto | | auto].
      simpl. tauto. }
    intros org_text. simpl.
    intros st H. unfold bind at 1. rewrite paginate_search_eq.
    destruct (search_issues W _) as [e|pages] eqn:Hs.
    + apply stopped_by_next; [|exact H]. simpl. now rewrite Hs.
    + assert (H1 : all_answered W
                     (with_call
                        (CallSearch
                           ("is:pr is:open org:" ++ org_text
                              ++ " author:" ++ strip_at text))
                        st))
        by (apply all_answered_next; [simpl; now rewrite Hs | exact H]).
      pose proof (items_loop_inv W (all_answered W) (thrown_at W)
                    addPR_stop
                    (slice0 per_author (flat_map page_items pages)) _ H1)
        as Hitems.
      unfold bind.
      destruct (items_loop W _ _) as [[[]|e] st1]; [|exact Hitems].
      now apply IH.
Qed.

Lemma collect_stop repos users :
  triple (all_answered W) (collect W org repos users cap per_author)
    (fun _ => all_answered W) (thrown_at W).
Proof.
  unfold collect. eapply triple_bind; [apply repos_loop_stop|].
  intros ?. apply users_loop_stop.
Qed.

Lemma digest_stop repos users cap0 :
  triple (all_answered W) (digest W org repos users cap0 cap per_author)
    (fun _ => all_answered W) (thrown_at W).
Proof.
  unfold digest. eapply triple_bind; [apply collect_stop|].
  intros ?. eapply triple_bind;
    [apply triple_cleaned_all, thrown_at_answered|].
  intros ? st [H _]. simpl.
  destruct (classify repos (prMap st)) as [teamOwned teamNonOwned].
  exact H.
Qed.
End Stop.

Lemma main_stop W :
  match main W initial with
  | (Ok _, st) => all_answered W st
  | (Throw e, st) => thrown_at W e st
  end.
Proof.
  destruct (start_cases W)
    as [msg _ Hrun | Hnull [e0 Hrun] _ | p cfg Hp Hne Hex Hr Horg Hlist _].
  - rewrite Hrun. intros c [].
  - rewrite Hrun. right. intros c [].
  - rewrite (main_accepted W p cfg) by assumption.
    apply digest_stop. intros c [].
Qed.

(** A failed call among the calls of a run is the call the run stopped
    at. *)
Lemma failed_call_stops W c e r st :
  match r with
  | Ok _ => all_answered W st
  | Throw e' => thrown_at W e' st
  end ->
  In c (calls st) -> answer_error W c = Some e ->
  r = @Throw unit e /\ stopped_by W e st.
Proof.
  intros Hrun Hin Hc.
  assert (Hnot : ~ all_answered W st)
    by (intros H; rewrite (H c Hin) in Hc; discriminate).
  destruct r as [[]|e']; [contradiction|].
  destruct Hrun as [Hstop|H]; [|contradiction].
  destruct Hstop as (before & c' & Hcalls & Hbefore & Hc').
  assert (c = c').
  { rewrite Hcalls in Hin. apply in_app_iff in Hin.
    destruct Hin as [Hin|[<-|[]]]; [|reflexivity].
    rewrite (Hbefore c Hin) in Hc. discriminate. }
  subst c'. rewrite Hc in Hc'. injection Hc' as <-.
  split; [reflexivity|]. now exists before, c.
Qed.

(** ** The searches of a run *)

Section Queries.
Variable W : world.
Variable org : value.
Variable users : list value.
Variables cap per_author : Z.

Lemma searches_from_other c st :
  (forall q, c <> CallSearch q) ->
  searches_from org users st -> searches_from org users (with_call c st).
Proof.
  intros Hc H q Hin. simpl in Hin. apply in_app_iff in Hin.
  destruct Hin as [Hin|[Heq|[]]]; [now apply H|].
  now apply Hc in Heq.
Qed.

Lemma addPR_searches owner repo number :
  triple (searches_from org users) (addPR W owner repo number)
    (fun _ => searches_from org users) (fun _ => searches_from org users).
Proof.
  apply addPR_keeps.
  - intros st data _ H q Hin. simpl in Hin. apply in_app_iff in Hin.
    destruct Hin as [Hin|[Heq|[]]]; [now apply H | discriminate Heq].
  - intros st e _ H. apply searches_from_other; [discriminate | exact H].
Qed.

Lemma repos_loop_searches rs :
  triple (searches_from org users) (repos_loop W cap rs)
    (fun _ => searches_from org users) (fun _ => searches_from org users).
Proof.
  apply repos_loop_inv.
  - intros owner repo i st H.
    apply searches_from_other; [discriminate | exact H].
  - intros e st H. exact H.
  - intros owner repo number.
    eapply triple_weaken; [apply addPR_searches | | auto | auto].
    simpl. intros st [H _]. exact H.
Qed.

Lemma users_loop_searches us :
  (forall entry, In entry us -> In entry users) ->
  triple (searches_from org users) (users_loop W org cap per_author us)
    (fun _ => searches_from org users) (fun _ => searches_from org users).
Proof.
  induction us as [|userRaw rest IH]; intros Hsub; simpl.
  - now apply triple_ret.
  - assert (IH' : triple (searches_from org users)
                    (users_loop W org cap per_author rest)
                    (fun _ => searches_from org users)
                    (fun _ => searches_from org users))
      by (apply IH; intros entry Hin; apply Hsub; now right).
    eapply triple_bind; [apply triple_size|].
    intros n. simpl.
    destruct (cap <=? n); [apply triple_ret; tauto|].
    eapply triple_bind
      with (Q := fun text st =>
                   searches_from org users st /\ text = clean userRaw).
    { eapply triple_weaken;
        [apply (triple_cleaned (searches_from org users)
                  (fun _ => searches_from org users)); auto
        | tauto | | auto].
      simpl. tauto. }
    intros text. simpl.
    destruct (strip_at text =? "")%string eqn:Eu.
    { eapply triple_weaken; [exact IH' | tauto | auto | auto]. }
    eapply triple_bind
      with (Q := fun org_text st =>
                   searches_from org users st /\ text = clean userRaw
                   /\ org_text = to_string org).
    { eapply triple_weaken;
        [apply (triple_String_of
                  (fun st => searches_from org users st
                             /\ text = clean userRaw)
                  (fun _ => searches_from org users))
        | auto | | auto].
      - intros e st [H _]. exact H.
      - simpl. tauto. }
    intros org_text. simpl.
    intros st [H [-> ->]]. unfold bind at 1. rewrite paginate_search_eq.
    assert (H1 : searches_from org users
                   (with_call (CallSearch (query_for org userRaw)) st)).
    { intros q Hin. simpl in Hin. apply in_app_iff in Hin.
      destruct Hin as [Hin|[[= <-]|[]]]; [now apply H|].
      exists userRaw. split; [apply Hsub; now left|]. now split. }
    fold (query_for org userRaw).
    destruct (search_issues W _) as [e|pages]; [exact H1|].
    pose proof (items_loop_inv W (searches_from org users)
                  (fun _ => searches_from org users) addPR_searches
                  (slice0 per_author (flat_map page_items pages)) _ H1)
      as Hitems.
    unfold bind.
    destruct (items_loop W _ _) as [[[]|e] st1]; [|exact Hitems].
    now apply IH'.
Qed.

Lemma collect_searches repos :
  triple (searches_from org users)
    (collect W org repos users cap per_author)
    (fun _ => searches_from org users) (fun _ => searches_from org users).
Proof.
  unfold collect. eapply triple_bind; [apply repos_loop_searches|].
  intros ?. apply users_loop_searches. auto.
Qed.
End Queries.

End MoreFacts.

(* ================================================================== *)
(** * Further properties of the script *)
(* ================================================================== *)

Module Coverage.
Import Js Platform Digest Spec Cover.
Import JsFacts UrlFacts DigestFacts RenderFacts MoreFacts.
Local Open Scope script_scope.

(** ** The ways a run ends *)

(** X1.  A run ends in exactly one of three ways: a guard reports one
    failure, and nothing else has happened; or the run returns with the
    digest of the merged collection as its output and no failure; or it
    throws, with no failure reported and no output. *)
Theorem run_outcomes (W : world) :
  let r := outcome (main W) initial in
  let st := final (main W) initial in
  (r = Ok tt /\ exists msg, st = failed_with msg)
  \/ (r = Ok tt /\ failed st = []
      /\ exists p cfg,
           accepted W p cfg
           /\ output st
              = Some (digest_text W (array_or_empty (cfg_repos cfg))
                        (repo_cap cfg) (prMap st)))
  \/ (exists e, r = Throw e /\ failed st = [] /\ output st = None).
Proof.
  unfold outcome, final.
  destruct (run_cases W) as [[msg Hrun] | [[e Hrun] | [p [cfg Hacc]]]].
  - left. rewrite Hrun. split; [reflexivity | now exists msg].
  - right. right. exists e. rewrite Hrun. auto.
  - right. rewrite (main_finish W p cfg Hacc).
    pose proof (collect_quiet W (cfg_org cfg)
                  (array_or_empty (cfg_repos cfg))
                  (array_or_empty (cfg_users cfg))
                  (total_cap cfg) (search_cap cfg)
                  initial (conj eq_refl eq_refl)) as Hq.
    fold (collected W cfg) in Hq.
    destruct (collected W cfg) as [[[]|e] st]; simpl.
    + destruct Hq as [Hf Ho].
      destruct (forallb can_clean (array_or_empty (cfg_repos cfg))); simpl.
      * left. repeat split; [exact Hf|]. now exists p, cfg.
      * right. exists conversion_error. auto.
    + right. exists e. tauto.
Qed.

(** ** Bounds on what is collected *)

(** X2.  With no author in the configuration, and a cap that is not
    negative, the merged collection of a run holds at most
    [max_total_prs] records. *)
Theorem listing_only_within_cap (W : world) (p : string) (cfg : config_doc)
  (Hacc : accepted W p cfg)
  (Husers : array_or_empty (cfg_users cfg) = [])
  (Hcap : 0 <= total_cap cfg) :
  map_size (prMap (final (main W) initial)) <= total_cap cfg.
Proof.
  unfold final. rewrite (main_finish W p cfg Hacc).
  rewrite (proj1 (finish_state W _ _ _)).
  unfold collected. rewrite Husers.
  now apply collect_listing_bound.
Qed.

Lemma listing_only_within_cap_witness :
  map_size (prMap (final (main world_two_pages) initial))
  <= total_cap doc_one_repo.
Proof.
  apply (listing_only_within_cap world_two_pages "cfg.json" doc_one_repo).
  - repeat split; try reflexivity; [discriminate | left; discriminate].
  - reflexivity.
  - vm_compute. discriminate.
Defined.

(** X3.  With authors, the collection can pass the cap, by less than the
    number of search results kept for one author: with caps that are not
    negative, a run merges at most
    [max(max_total_prs, max_total_prs - 1 + max_search_results_per_user)]
    records. *)
Theorem search_overshoot_bound (W : world) (p : string) (cfg : config_doc)
  (Hacc : accepted W p cfg)
  (Hcap : 0 <= total_cap cfg) (Hper : 0 <= search_cap cfg) :
  map_size (prMap (final (main W) initial))
  <= overshoot (total_cap cfg) (search_cap cfg).
Proof.
  unfold final. rewrite (main_finish W p cfg Hacc).
  rewrite (proj1 (finish_state W _ _ _)).
  now apply collect_bound.
Qed.

Lemma search_overshoot_bound_witness :
  map_size (prMap (final (main world_two_found) initial))
  <= overshoot (total_cap doc_one_author) (search_cap doc_one_author).
Proof.
  apply (search_overshoot_bound world_two_found "cfg.json" doc_one_author).
  - repeat split; try reflexivity; [discriminate | right; discriminate].
  - vm_compute. discriminate.
  - vm_compute. discriminate.
Defined.



(** X5.  Once the collection has reached the cap, no repository is listed
    and no author is searched any more: the two loops return at once,
    without a remote call and without reading an entry.  With a cap of zero
    or less, the run fetches nothing: it outputs the digest of the empty
    collection when every entry of [repos] can be converted to text, and
    throws the [TypeError] of the conversion of line 133 when one
    cannot. *)
Theorem nothing_starts_at_cap (W : world) (org : value)
  (repos users : list value) (cap per_author : Z) (st : state)
  (Hcap : cap <= map_size (prMap st)) :
  collect W org repos users cap per_author st = (Ok tt, st)
  /\ (forall p cfg,
        accepted W p cfg -> total_cap cfg <= 0 ->
        main W initial
        = if forallb can_clean (array_or_empty (cfg_repos cfg))
          then
            (Ok tt,
             with_output
               (digest_text W (array_or_empty (cfg_repos cfg)) (repo_cap cfg)
                  [])
               initial)
          else (Throw conversion_error, initial)).
Proof.
  split; [now apply collect_at_cap|].
  intros p cfg Hacc Hzero. rewrite (main_finish W p cfg Hacc).
  unfold collected. now rewrite collect_at_cap.
Qed.

Lemma nothing_starts_at_cap_witness :
  collect (world_with doc_cap_zero) (VStr "acme")
    [VStr "acme/core"] [VStr "alice"] 0 500 initial
  = (Ok tt, initial)
  /\ calls (final (main (world_with doc_cap_zero)) initial) = []
  /\ main (world_with doc_cap_zero_object) initial
     = (Throw conversion_error, initial).
Proof.
  split; [|split].
  - apply (proj1 (nothing_starts_at_cap (world_with doc_cap_zero)
                    (VStr "acme") [VStr "acme/core"] [VStr "alice"] 0 500
                    initial ltac:(vm_compute; discriminate))).
  - reflexivity.
  - apply (proj2 (nothing_starts_at_cap (world_with doc_cap_zero_object)
                    (VStr "acme") [] [] 0 500
                    initial ltac:(vm_compute; discriminate))
             "cfg.json" doc_cap_zero_object).
    + repeat split; try reflexivity; [discriminate | left; discriminate].
    + vm_compute. discriminate.
Defined.

(** X6.  Entries of the configuration that are skipped cost nothing: when
    every entry can be converted to text, every repository lacks an owner
    or a name and every author is blank once trimmed and stripped of its
    "@", the two loops make no remote call and leave the state as it is; a
    configuration with such entries only is accepted all the same, and its
    run outputs the digest of the empty collection. *)
Theorem skipped_entries_fetch_nothing (W : world) (org : value)
  (repos users : list value) (cap per_author : Z) (st : state)
  (Hrepos_text : forallb can_clean repos = true)
  (Husers_text : forallb can_clean users = true)
  (Hrepos : forallb skipped_repo repos = true)
  (Husers : forallb skipped_user users = true) :
  collect W org repos users cap per_author st = (Ok tt, st)
  /\ (forall p cfg,
        accepted W p cfg ->
        array_or_empty (cfg_repos cfg) = repos ->
        array_or_empty (cfg_users cfg) = users ->
        main W initial
        = (Ok tt, with_output (digest_text W repos (repo_cap cfg) []) initial)).
Proof.
  assert (Hcollect : forall org' cap' per' st',
             collect W org' repos users cap' per' st' = (Ok tt, st')).
  { intros. unfold collect, bind.
    rewrite repos_loop_skipped by assumption.
    now apply users_loop_skipped. }
  split; [apply Hcollect|].
  intros p cfg Hacc <- <-. rewrite (main_finish W p cfg Hacc).
  unfold collected. rewrite Hcollect. unfold finish.
  now rewrite Hrepos_text.
Qed.

Lemma skipped_entries_fetch_nothing_witness :
  main (world_with doc_skipped) initial
  = (Ok tt,
     with_output
       (digest_text (world_with doc_skipped)
          (array_or_empty (cfg_repos doc_skipped)) (repo_cap doc_skipped) [])
       initial).
Proof.
  apply (proj2 (skipped_entries_fetch_nothing (world_with doc_skipped)
                  (VStr "acme")
                  (array_or_empty (cfg_repos doc_skipped))
                  (array_or_empty (cfg_users doc_skipped)) 200 500 initial
                  eq_refl eq_refl eq_refl eq_refl) "cfg.json" doc_skipped).
  - repeat split; try reflexivity; [discriminate | left; discriminate].
  - reflexivity.
  - reflexivity.
Defined.

(** ** The entries of the collection *)

(** X7.  Every entry of the merged collection comes from a detail fetch
    of this run that succeeded: its key is the URL of the answer, its value
    the record made of that answer with an age read from the clock during
    the run.  So the key of an entry is the URL of its record, and no
    record has an empty author. *)
Theorem entries_come_from_fetches (W : world) (k : string) (v : pr_record)
  (Hin : In (k, v) (prMap (final (main W) initial))) :
  fetched W (final (main W) initial) k v
  /\ pr_url v = k
  /\ pr_author v <> "".
Proof.
  pose proof (main_fetched W k v Hin) as Hf.
  split; [exact Hf|].
  destruct Hf as (owner & repo & number & data & t & _ & _ & -> & -> & _).
  split; [reflexivity | apply author_of_not_empty].
Qed.

Lemma entries_come_from_fetches_witness :
  pr_url (record_of "acme" "core" data_5 9) = html_url data_5
  /\ pr_author (record_of "acme" "core" data_5 9) <> "".
Proof.
  apply (entries_come_from_fetches world_two_pages
           (html_url data_5) (record_of "acme" "core" data_5 9)).
  vm_compute. left. reflexivity.
Defined.

(** X8.  The collection only grows, at its end: neither loop removes an
    entry or moves one, so that the keys before a loop are the first keys
    after it, in the same order. *)
Theorem entries_stay_in_place (W : world) (org : value)
  (repos users : list value) (cap per_author : Z) (st : state) :
  (exists added,
      map_keys (prMap (final (repos_loop W cap repos) st))
      = (map_keys (prMap st) ++ added)%list)
  /\ (exists added,
      map_keys (prMap (final (users_loop W org cap per_author users) st))
      = (map_keys (prMap st) ++ added)%list)
  /\ (exists added,
      map_keys (prMap (final (collect W org repos users cap per_author) st))
      = (map_keys (prMap st) ++ added)%list).
Proof.
  assert (Hstart : exists added,
             map_keys (prMap st) = (map_keys (prMap st) ++ added)%list)
    by (exists []; now rewrite app_nil_r).
  split; [|split]; unfold final.
  - pose proof (repos_loop_keys W cap (map_keys (prMap st)) repos st Hstart)
      as Hq.
    now destruct (repos_loop W cap repos st) as [[[]|e] st'].
  - pose proof (users_loop_keys W org cap per_author (map_keys (prMap st))
                  users st Hstart) as Hq.
    now destruct (users_loop W org cap per_author users st) as [[[]|e] st'].
  - pose proof (collect_keys W org repos users cap per_author
                  (map_keys (prMap st)) st Hstart) as Hq.
    now destruct (collect W org repos users cap per_author st)
      as [[[]|e] st'].
Qed.

(** ** The records of a section *)





(** ** Repositories *)

(** X11.  With no author in the configuration and repositories written
    with one "/" at most, every record of the run is owned: the section of
    the other repositories is empty. *)
Theorem listing_records_are_owned (W : world) (p : string)
  (cfg : config_doc) (Hacc : accepted W p cfg)
  (Husers : array_or_empty (cfg_users cfg) = [])
  (Hone : forall entry,
      In entry (array_or_empty (cfg_repos cfg)) -> one_slash entry) :
  snd (classify (array_or_empty (cfg_repos cfg))
         (prMap (final (main W) initial))) = [].
Proof.
  rewrite classify_eq. simpl.
  assert (Hall : forall v,
             In v (map_values (prMap (final (main W) initial))) ->
             owned (array_or_empty (cfg_repos cfg)) v = true).
  { unfold final. rewrite (main_finish W p cfg Hacc).
    rewrite (proj1 (finish_state W _ _ _)).
    unfold collected, collect. rewrite Husers.
    pose proof (repos_loop_owned W (total_cap cfg)
                  (array_or_empty (cfg_repos cfg)) Hone initial
                  (fun v (H : In v []) => match H with end)) as Hq.
    unfold bind.
    now destruct (repos_loop W (total_cap cfg) _ initial) as [[[]|e] st]. }
  induction (map_values (prMap (final (main W) initial))) as [|v vs IH];
    simpl; [reflexivity|].
  rewrite (Hall v) by now left.
  simpl. apply IH. intros v' Hv'. apply Hall. now right.
Qed.

Lemma listing_records_are_owned_witness :
  snd (classify (array_or_empty (cfg_repos doc_one_repo))
         (prMap (final (main world_two_pages) initial))) = [].
Proof.
  apply (listing_records_are_owned world_two_pages "cfg.json" doc_one_repo).
  - repeat split; try reflexivity; [discriminate | left; discriminate].
  - reflexivity.
  - intros entry [<-|[]]. vm_compute. apply le_n.
Defined.

(** X12.  Every detail fetch of a run is for an owner and a repository
    that are not empty and hold no "/"; so the repository of every merged
    record is [owner/repo] with such parts, and holds exactly one "/". *)
Theorem records_name_a_repository (W : world) :
  (forall owner repo number,
      In (CallGet owner repo number) (calls (final (main W) initial)) ->
      segment owner /\ segment repo)
  /\ (forall k v,
      In (k, v) (prMap (final (main W) initial)) ->
      (exists owner repo,
          pr_repo v = owner ++ "/" ++ repo
          /\ segment owner /\ segment repo)
      /\ slashes (pr_repo v) = 1%nat).
Proof.
  split; [apply main_names|].
  intros k v Hin. apply main_fetched in Hin.
  destruct Hin as (owner & repo & number & data & t & Hcall & _ & _ & -> & _).
  apply main_names in Hcall. destruct Hcall as [Ho Hr].
  split; [exists owner, repo; auto|].
  unfold record_of. cbn [pr_repo]. rewrite !slashes_app.
  rewrite (slashes_segment _ (proj2 Ho)), (slashes_segment _ (proj2 Hr)).
  reflexivity.
Qed.

Lemma records_name_a_repository_witness :
  segment "acme" /\ segment "core".
Proof.
  apply (proj1 (records_name_a_repository world_two_pages) "acme" "core" 5).
  vm_compute. right. left. reflexivity.
Defined.

(** ** Numbers and dates *)

(** X13.  The number of a locator survives the search path as long as a
    double holds it: a locator written with the decimal text of [n], from
    0 to [2^53], is parsed back to the same owner and repository, [Number]
    of its last part is [n], and the record [n] of that repository is the
    one fetched. *)
Theorem locator_round_trip (W : world) (prefix owner repo : string) (n : Z)
  (rest : list search_item) (st : state)
  (Hn : 0 <= n <= exact_limit) (Ho : segment owner) (Hr : segment repo) :
  url_match (locator prefix owner repo (string_of_Z n))
  = Some (owner, repo, string_of_Z n)
  /\ Number_of (string_of_Z n) = Some n
  /\ items_loop W
       (SearchItem (Some (locator prefix owner repo (string_of_Z n))) :: rest)
       st
     = (addPR W owner repo n ;; items_loop W rest) st.
Proof.
  destruct (number_of_string_of_Z n (proj1 Hn)) as [Hnum Hdigits].
  pose proof (url_match_complete prefix owner repo _ Ho Hr Hdigits) as Hm.
  assert (HN : Number_of (string_of_Z n) = Some n).
  { unfold Number_of. rewrite Hnum. apply nearest_double_exact, Hn. }
  split; [exact Hm|]. split; [exact HN|].
  cbn [items_loop]. rewrite Hm, HN.
  destruct (locator prefix owner repo (string_of_Z n) =? "")%string eqn:E;
    [|reflexivity].
  apply String.eqb_eq in E. rewrite E in Hm. discriminate Hm.
Qed.

Lemma locator_round_trip_witness :
  url_match (locator "https://api.github.test" "acme" "core" (string_of_Z 1207))
  = Some ("acme", "core", "1207")
  /\ Number_of (string_of_Z 1207) = Some 1207.
Proof.
  pose proof (locator_round_trip world_two_pages "https://api.github.test"
                "acme" "core" 1207 [] initial
                ltac:(vm_compute; split; discriminate)
                ltac:(split; [discriminate | reflexivity])
                ltac:(split; [discriminate | reflexivity])) as [H1 [H2 _]].
  split; [exact H1 | exact H2].
Defined.



(** ** Remote calls *)

(** X15.  A run stops at the first remote call that fails, with the error
    of that call: a call of the run that has failed is its last call, no
    call before it has failed, and the run throws the error of that call.
    So a run that returns has no failed call, but for detail fetches that
    answered 404.  A 404 of a listing page, unlike a 404 of a detail fetch,
    stops the run. *)
Theorem run_stops_at_failing_call (W : world) :
  (outcome (main W) initial = Ok tt ->
   all_answered W (final (main W) initial))
  /\ (forall c e,
      In c (calls (final (main W) initial)) ->
      answer_error W c = Some e ->
      outcome (main W) initial = Throw e
      /\ stopped_by W e (final (main W) initial)).
Proof.
  unfold outcome, final. pose proof (main_stop W) as Hrun.
  destruct (main W initial) as [r st]. cbn [fst snd]. split.
  - intros ->. exact Hrun.
  - intros c e. now apply failed_call_stops.
Qed.

Lemma run_stops_at_failing_call_witness :
  outcome (main world_no_repo) initial = Throw (HttpError (Some 404))
  /\ stopped_by world_no_repo (HttpError (Some 404))
       (final (main world_no_repo) initial).
Proof.
  apply (proj2 (run_stops_at_failing_call world_no_repo)
           (CallList "acme" "core" 0) (HttpError (Some 404))).
  - vm_compute. left. reflexivity.
  - reflexivity.
Defined.

(** X16.  Every search of a run is for an author of the configuration
    that is not skipped, with the query
    [is:pr is:open org:{org} author:{user}], the user being the entry
    trimmed and stripped of one "@" in front. *)
Theorem searches_come_from_users (W : world) (p : string)
  (cfg : config_doc) (q : string) (Hacc : accepted W p cfg)
  (Hq : In (CallSearch q) (calls (final (main W) initial))) :
  asked_for (cfg_org cfg) (array_or_empty (cfg_users cfg)) q.
Proof.
  revert Hq. unfold final. rewrite (main_finish W p cfg Hacc).
  rewrite (proj1 (proj2 (finish_state W _ _ _))).
  pose proof (collect_searches W (cfg_org cfg)
                (array_or_empty (cfg_users cfg))
                (total_cap cfg) (search_cap cfg)
                (array_or_empty (cfg_repos cfg)) initial
                (fun q (H : In (CallSearch q) []) => match H with end))
    as Hinv.
  fold (collected W cfg) in Hinv.
  destruct (collected W cfg) as [[[]|e] st]; simpl; apply Hinv.
Qed.

Lemma searches_come_from_users_witness :
  asked_for (cfg_org doc_one_author)
    (array_or_empty (cfg_users doc_one_author))
    "is:pr is:open org:acme author:alice".
Proof.
  apply (searches_come_from_users world_two_found "cfg.json" doc_one_author).
  - repeat split; try reflexivity; [discriminate | right; discriminate].
  - vm_compute. left. reflexivity.
Defined.

(** ** Classification *)

(** X17.  Classification keeps the order of the collection: the owned
    records are the owned values of the map in the order of the map, and
    the other records are the other values in that order. *)
Theorem classification_keeps_order (repos : list value)
  (m : jsmap pr_record) :
  classify repos m
  = (filter (owned repos) (map_values m),
     filter (fun pr => negb (owned repos pr)) (map_values m)).
Proof.
  unfold classify. rewrite classify_fold. reflexivity.
Qed.

End Coverage.
